(** * x-draggable: the interaction engine of [src/index.ts]

    A shallow embedding of the [XDraggable] class: the geometry of a drag
    ([computeElementPosition]), the drop-target registry
    ([draggablePools], [checkPoolsCoincide]), the sibling reorder check
    ([checkChildrenSort]) behind its debounce gate, and the resize engine
    ([computeElementSize]).

    Conventions of the embedding.
    - Pixel quantities ([offsetTop], [pageX], ...) are integers ([Z]).
    - The DOM is an oracle: a [Layout] answers the [offsetTop], [offsetLeft],
      [offsetWidth] and [offsetHeight] reads the code performs.  Every
      handler takes the layout of the moment it runs in, so all results hold
      for every layout engine.
    - A JavaScript exception ([TypeError] on a property of [undefined],
      [NotFoundError] of [removeChild]) is the [None] of an [option].
    - Time is explicit: a handler receives the value of [Date.now()].
    - One instance is followed through its life; the registry it finds at
      construction is the one earlier constructions left.  The mask, the
      pointer to the instance in charge ([_this]) and [document.body] are
      shared by all instances of a page: what [reachable] describes is a
      page in which the followed instance is the only one, and statements
      that are to hold in any page are made about single steps of the
      handlers, with what they need of the state as a hypothesis. *)

From Stdlib Require Import Ascii.
From stdpp Require Import base option list gmap strings pretty.

Local Open Scope Z_scope.

(** ** Data model *)

(** [direction?: '' | 'right' | 'left' | 'top' | 'bottom']; the empty string
    and [undefined] are both falsy and both [DirNone]. *)
Inductive Direction := DirNone | DirRight | DirLeft | DirTop | DirBottom.

Record DraggableOptions := {
  dragId : option string;
  isChildren : bool;
  isAllowOut : bool;
  isAllowIn : bool;
  isSort : bool;
  resizeId : option string;
  direction : Direction
}.

(** [type PositionItem]; [el] is an element of [this.el.children], named by
    its position in that collection. *)
Module PositionItem.
Record t := mk {
  top : Z;
  left : Z;
  width : Z;
  height : Z;
  el : option nat
}.
End PositionItem.

(** [private info = { currentTop: 0, ... }]. *)
Record Info := {
  currentTop : Z;
  currentLeft : Z;
  currentWidth : Z;
  currentHeight : Z;
  offsetTop : Z;
  offsetLeft : Z;
  parentTop : Z;
  parentLeft : Z;
  parentWidth : Z;
  parentHeight : Z
}.

Inductive EventType := mousedown | mousemove | mouseup.

(** What [e.target] can be: the container itself or one of its children
    (grandchildren have [pointer-events: none]). *)
Inductive Target := TargetEl | TargetChild (i : nat).

Record MouseEvent := {
  etype : EventType;
  pageX : Z;
  pageY : Z;
  offsetX : Z;
  offsetY : Z;
  target : Target
}.

(** A child element of the container.  [order] is [child.style.order], a CSS
    integer or the empty string ([None]); [dragIndexAttr] is the [drag-index]
    attribute; [isHandle] marks the resize handle that
    [initDragHandleElement] appends. *)
Record Child := {
  order : option Z;
  dragIndexAttr : option Z;
  isHandle : bool
}.

(** The nodes [this.$current] can refer to. *)
Inductive Node := NodeEl | NodeProxy (id : nat).

(** The four offset reads of an element. *)
Record Box := {
  boxTop : Z;
  boxLeft : Z;
  boxWidth : Z;
  boxHeight : Z
}.

(** The layout engine: the box of the container or of a proxy, and the box
    of the [i]-th child given the [order] values of all children. *)
Record Layout := {
  nodeBox : Node → Box;
  childBox : list Child → nat → Box
}.

Global Instance Direction_eq_dec : EqDecision Direction.
Proof. solve_decision. Defined.
Global Instance Node_eq_dec : EqDecision Node.
Proof. solve_decision. Defined.

(** ** The registry object

    [draggablePools] is a plain object, written with
    [draggablePools[id] = {...}] and walked with [for (const key in ...)].

    Its own properties are kept in the order of enumeration, which is part
    of the language (OrdinaryOwnPropertyKeys): keys that are array indices
    come first, in ascending numeric order, then the other string keys in
    the order they were created.  Assigning to an existing key keeps its
    place. *)

Definition JsProps := list (string * PositionItem.t).

Definition digit_value (c : ascii) : option N :=
  let n := N_of_ascii c in
  if (48 <=? n)%N && (n <=? 57)%N then Some (n - 48)%N else None.

Fixpoint digits_value (s : string) (acc : N) : option N :=
  match s with
  | EmptyString => Some acc
  | String c s' =>
      match digit_value c with
      | Some d => digits_value s' (acc * 10 + d)%N
      | None => None
      end
  end.

(** An array index is a canonical numeric string below [2^32 - 1]. *)
Definition array_index (s : string) : option N :=
  match s with
  | EmptyString => None
  | String c s' =>
      if bool_decide (c = "0"%char) && negb (bool_decide (s' = EmptyString)) then None
      else match digits_value s 0 with
           | Some n => if (n <? 4294967295)%N then Some n else None
           | None => None
           end
  end.

Definition has_key (key : string) (o : JsProps) : bool :=
  existsb (λ kv, bool_decide (kv.1 = key)) o.

Fixpoint replace_value (key : string) (v : PositionItem.t) (o : JsProps) : JsProps :=
  match o with
  | [] => []
  | (k, w) :: rest =>
      if bool_decide (k = key) then (k, v) :: rest
      else (k, w) :: replace_value key v rest
  end.

(** A new array-index key goes before the first key that is not an array
    index or is a larger one. *)
Fixpoint insert_index (n : N) (key : string) (v : PositionItem.t) (o : JsProps) : JsProps :=
  match o with
  | [] => [(key, v)]
  | (k, w) :: rest =>
      match array_index k with
      | Some m => if (m <? n)%N then (k, w) :: insert_index n key v rest
                  else (key, v) :: (k, w) :: rest
      | None => (key, v) :: (k, w) :: rest
      end
  end.

(** Writing an own property. *)
Definition own_set (key : string) (v : PositionItem.t) (o : JsProps) : JsProps :=
  if has_key key o then replace_value key v o
  else match array_index key with
       | Some n => insert_index n key v o
       | None => o ++ [(key, v)]
       end.

Definition own_keys (o : JsProps) : list string := o.*1.

Fixpoint own_get (key : string) (o : JsProps) : option PositionItem.t :=
  match o with
  | [] => None
  | (k, w) :: rest => if bool_decide (k = key) then Some w else own_get key rest
  end.

(** The object itself: its own properties and its prototype.  The registry
    starts as [{}], whose prototype is [Object.prototype]; the one property
    of [Object.prototype] that an assignment does not shadow is the accessor
    [__proto__], whose setter, given an object, makes it the prototype of the
    receiver.  [proto] is that object, once there is one: always a rectangle
    [{top, left, width, height}], itself with prototype [Object.prototype]. *)
Record JsObject := {
  own : JsProps;
  proto : option PositionItem.t
}.

(** [{}]. *)
Definition js_empty : JsObject := {| own := []; proto := None |}.

(** [o[key] = v], for [v] an object. *)
Definition js_set (key : string) (v : PositionItem.t) (o : JsObject) : JsObject :=
  if bool_decide (key = "__proto__") then {| own := own o; proto := Some v |}
  else {| own := own_set key v (own o); proto := proto o |}.

(** [Object.keys(o)]. *)
Definition js_keys (o : JsObject) : list string := own_keys (own o).

(** What [o[key]] is for a key that [for ... in] visits: a rectangle, for an
    own key, or one of the numbers of the prototype. *)
Inductive PoolValue :=
  | PoolRect (pool : PositionItem.t)
  | PoolNumber (z : Z).

(** The enumerable properties of the prototype, in the order the literal of
    [initDragPoolInfo] creates them. *)
Definition proto_entries (r : PositionItem.t) : list (string * Z) :=
  [("top", PositionItem.top r); ("left", PositionItem.left r);
   ("width", PositionItem.width r); ("height", PositionItem.height r)].

(** [for (const key in o)] with [o[key]]: the own keys, then the keys of the
    prototype that no own key shadows. *)
Definition for_in (o : JsObject) : list (string * PoolValue) :=
  ((λ kv, (kv.1, PoolRect kv.2)) <$> own o)
  ++ match proto o with
     | Some r =>
         (λ kz, (kz.1, PoolNumber kz.2))
           <$> filter (λ kz, kz.1 ∉ js_keys o) (proto_entries r)
     | None => []
     end.

(** ** lodash [debounce]

    [checkChildrenSort = debounce(fn, 200, { leading: true })].  The library
    is imported, not part of the repository; the gate below follows lodash
    4.17 for the options the call passes: [leading] is true, [trailing] keeps
    its default [true], and there is no [maxWait].  [timerId] holds the time
    at which the pending [setTimeout] is due; when the timer actually runs
    is up to the host, and is an input of [timerExpired].  Nothing below is
    proved about the times at which the gate lets a submission through: the
    properties of the reorder check hold for every execution of its body,
    whenever the gate grants one. *)

Definition wait : Z := 200.

Record Debounced (A : Type) := {
  lastArgs : option A;
  lastCallTime : option Z;
  timerId : option Z
}.
Arguments lastArgs {A} _.
Arguments lastCallTime {A} _.
Arguments timerId {A} _.
Arguments Build_Debounced {A} _ _ _.

Section Debounce.
Context {A : Type}.

Definition gate_init : Debounced A :=
  {| lastArgs := None; lastCallTime := None; timerId := None |}.

Definition shouldInvoke (g : Debounced A) (time : Z) : bool :=
  match lastCallTime g with
  | None => true
  | Some c => (wait <=? time - c) || (time - c <? 0)
  end.

(** [debounced()] called at [time] with [args]: the new gate and the
    arguments [func] is invoked with at once, if it is. *)
Definition debounced (time : Z) (args : A) (g : Debounced A) : Debounced A * option A :=
  let isInvoking := shouldInvoke g time in
  match timerId g with
  | None =>
      if isInvoking then
        (* leadingEdge: start the timer, invokeFunc clears lastArgs *)
        ({| lastArgs := None; lastCallTime := Some time; timerId := Some (time + wait) |},
         Some args)
      else
        ({| lastArgs := Some args; lastCallTime := Some time; timerId := Some (time + wait) |},
         None)
  | Some d =>
      ({| lastArgs := Some args; lastCallTime := Some time; timerId := Some d |}, None)
  end.

Definition remainingWait (g : Debounced A) (time : Z) : Z :=
  wait - (time - default 0 (lastCallTime g)).

(** [timerExpired()] running at [time]: either the trailing edge, which
    invokes [func] on the retained arguments, or a restart of the timer. *)
Definition timerExpired (time : Z) (g : Debounced A) : Debounced A * option A :=
  if shouldInvoke g time then
    ({| lastArgs := None; lastCallTime := lastCallTime g; timerId := None |}, lastArgs g)
  else
    ({| lastArgs := lastArgs g; lastCallTime := lastCallTime g;
        timerId := Some (time + remainingWait g time) |}, None).

End Debounce.

(** ** The instance and the page it lives in

    The fields of the class, followed by the process-wide state the class
    reads and writes: [draggablePools], the shared mask, the proxies this
    instance has appended to [document.body], its calls of
    [localStorage.setItem] and the payloads handed to the user's [drag]
    callback.

    Of the inline styles only what the code writes is kept: the width and
    height [setElementSize] gives the container, and the top/left pair
    [reanderCurrentStyle] gives to [$current]. *)

Record XDraggable := {
  options : DraggableOptions;                 (* [this.options], after [Object.assign] *)
  children : list Child;                      (* [this.el.children], in document order *)
  elWidth : option Z;                         (* [this.el.style.width], in px, once written *)
  elHeight : option Z;                        (* [this.el.style.height], in px, once written *)
  elPosition : option (Z * Z);                (* top and left written to the style of [this.el] *)
  current : option Node;                      (* [this.$current] *)
  proxyPosition : option (Z * Z);             (* top and left written to the style of the proxy *)
  info : Info;                                (* [this.info] *)
  childrenInfos : gmap string PositionItem.t; (* [this.childrenInfos] *)
  eventFnsDrag : bool;                        (* whether [this.eventFns.drag] is set *)
  dragIndex : Z;                              (* [this.dragIndex] *)
  isResize : bool;                            (* [this.isResize] *)
  sortGate : Debounced PositionItem.t;        (* the closure of [this.checkChildrenSort] *)
  draggablePools : JsObject;                  (* the module-level [draggablePools] *)
  maskDisplay : bool;                         (* whether the mask has [display: block] *)
  maskClassName : Direction;                  (* the class name of the mask *)
  body : list Node;                           (* the nodes it has in [document.body] *)
  clones : nat;                               (* how many proxies were cloned so far *)
  localStorage : list (string * string);      (* its calls of [setItem], oldest first *)
  dragCalls : list (string * Z)               (* the payloads given to the [drag] callback *)
}.

(** Assignments to one field. *)

Definition set_options (v : DraggableOptions) (st : XDraggable) : XDraggable :=
  {| options := v; children := children st; elWidth := elWidth st; elHeight := elHeight st;
     elPosition := elPosition st; current := current st; proxyPosition := proxyPosition st;
     info := info st; childrenInfos := childrenInfos st; eventFnsDrag := eventFnsDrag st;
     dragIndex := dragIndex st; isResize := isResize st; sortGate := sortGate st;
     draggablePools := draggablePools st; maskDisplay := maskDisplay st;
     maskClassName := maskClassName st; body := body st; clones := clones st;
     localStorage := localStorage st; dragCalls := dragCalls st |}.

Definition set_children (v : list Child) (st : XDraggable) : XDraggable :=
  {| options := options st; children := v; elWidth := elWidth st; elHeight := elHeight st;
     elPosition := elPosition st; current := current st; proxyPosition := proxyPosition st;
     info := info st; childrenInfos := childrenInfos st; eventFnsDrag := eventFnsDrag st;
     dragIndex := dragIndex st; isResize := isResize st; sortGate := sortGate st;
     draggablePools := draggablePools st; maskDisplay := maskDisplay st;
     maskClassName := maskClassName st; body := body st; clones := clones st;
     localStorage := localStorage st; dragCalls := dragCalls st |}.

Definition set_elWidth (v : option Z) (st : XDraggable) : XDraggable :=
  {| options := options st; children := children st; elWidth := v; elHeight := elHeight st;
     elPosition := elPosition st; current := current st; proxyPosition := proxyPosition st;
     info := info st; childrenInfos := childrenInfos st; eventFnsDrag := eventFnsDrag st;
     dragIndex := dragIndex st; isResize := isResize st; sortGate := sortGate st;
     draggablePools := draggablePools st; maskDisplay := maskDisplay st;
     maskClassName := maskClassName st; body := body st; clones := clones st;
     localStorage := localStorage st; dragCalls := dragCalls st |}.

Definition set_elHeight (v : option Z) (st : XDraggable) : XDraggable :=
  {| options := options st; children := children st; elWidth := elWidth st; elHeight := v;
     elPosition := elPosition st; current := current st; proxyPosition := proxyPosition st;
     info := info st; childrenInfos := childrenInfos st; eventFnsDrag := eventFnsDrag st;
     dragIndex := dragIndex st; isResize := isResize st; sortGate := sortGate st;
     draggablePools := draggablePools st; maskDisplay := maskDisplay st;
     maskClassName := maskClassName st; body := body st; clones := clones st;
     localStorage := localStorage st; dragCalls := dragCalls st |}.

Definition set_elPosition (v : option (Z * Z)) (st : XDraggable) : XDraggable :=
  {| options := options st; children := children st; elWidth := elWidth st;
     elHeight := elHeight st; elPosition := v; current := current st;
     proxyPosition := proxyPosition st; info := info st; childrenInfos := childrenInfos st;
     eventFnsDrag := eventFnsDrag st; dragIndex := dragIndex st; isResize := isResize st;
     sortGate := sortGate st; draggablePools := draggablePools st;
     maskDisplay := maskDisplay st; maskClassName := maskClassName st; body := body st;
     clones := clones st; localStorage := localStorage st; dragCalls := dragCalls st |}.

Definition set_current (v : option Node) (st : XDraggable) : XDraggable :=
  {| options := options st; children := children st; elWidth := elWidth st;
     elHeight := elHeight st; elPosition := elPosition st; current := v;
     proxyPosition := proxyPosition st; info := info st; childrenInfos := childrenInfos st;
     eventFnsDrag := eventFnsDrag st; dragIndex := dragIndex st; isResize := isResize st;
     sortGate := sortGate st; draggablePools := draggablePools st;
     maskDisplay := maskDisplay st; maskClassName := maskClassName st; body := body st;
     clones := clones st; localStorage := localStorage st; dragCalls := dragCalls st |}.

Definition set_proxyPosition (v : option (Z * Z)) (st : XDraggable) : XDraggable :=
  {| options := options st; children := children st; elWidth := elWidth st;
     elHeight := elHeight st; elPosition := elPosition st; current := current st;
     proxyPosition := v; info := info st; childrenInfos := childrenInfos st;
     eventFnsDrag := eventFnsDrag st; dragIndex := dragIndex st; isResize := isResize st;
     sortGate := sortGate st; draggablePools := draggablePools st;
     maskDisplay := maskDisplay st; maskClassName := maskClassName st; body := body st;
     clones := clones st; localStorage := localStorage st; dragCalls := dragCalls st |}.

Definition set_info (v : Info) (st : XDraggable) : XDraggable :=
  {| options := options st; children := children st; elWidth := elWidth st;
     elHeight := elHeight st; elPosition := elPosition st; current := current st;
     proxyPosition := proxyPosition st; info := v; childrenInfos := childrenInfos st;
     eventFnsDrag := eventFnsDrag st; dragIndex := dragIndex st; isResize := isResize st;
     sortGate := sortGate st; draggablePools := draggablePools st;
     maskDisplay := maskDisplay st; maskClassName := maskClassName st; body := body st;
     clones := clones st; localStorage := localStorage st; dragCalls := dragCalls st |}.

Definition set_childrenInfos (v : gmap string PositionItem.t) (st : XDraggable) : XDraggable :=
  {| options := options st; children := children st; elWidth := elWidth st;
     elHeight := elHeight st; elPosition := elPosition st; current := current st;
     proxyPosition := proxyPosition st; info := info st; childrenInfos := v;
     eventFnsDrag := eventFnsDrag st; dragIndex := dragIndex st; isResize := isResize st;
     sortGate := sortGate st; draggablePools := draggablePools st;
     maskDisplay := maskDisplay st; maskClassName := maskClassName st; body := body st;
     clones := clones st; localStorage := localStorage st; dragCalls := dragCalls st |}.

Definition set_eventFnsDrag (v : bool) (st : XDraggable) : XDraggable :=
  {| options := options st; children := children st; elWidth := elWidth st;
     elHeight := elHeight st; elPosition := elPosition st; current := current st;
     proxyPosition := proxyPosition st; info := info st; childrenInfos := childrenInfos st;
     eventFnsDrag := v; dragIndex := dragIndex st; isResize := isResize st;
     sortGate := sortGate st; draggablePools := draggablePools st;
     maskDisplay := maskDisplay st; maskClassName := maskClassName st; body := body st;
     clones := clones st; localStorage := localStorage st; dragCalls := dragCalls st |}.

Definition set_dragIndex (v : Z) (st : XDraggable) : XDraggable :=
  {| options := options st; children := children st; elWidth := elWidth st;
     elHeight := elHeight st; elPosition := elPosition st; current := current st;
     proxyPosition := proxyPosition st; info := info st; childrenInfos := childrenInfos st;
     eventFnsDrag := eventFnsDrag st; dragIndex := v; isResize := isResize st;
     sortGate := sortGate st; draggablePools := draggablePools st;
     maskDisplay := maskDisplay st; maskClassName := maskClassName st; body := body st;
     clones := clones st; localStorage := localStorage st; dragCalls := dragCalls st |}.

Definition set_isResize (v : bool) (st : XDraggable) : XDraggable :=
  {| options := options st; children := children st; elWidth := elWidth st;
     elHeight := elHeight st; elPosition := elPosition st; current := current st;
     proxyPosition := proxyPosition st; info := info st; childrenInfos := childrenInfos st;
     eventFnsDrag := eventFnsDrag st; dragIndex := dragIndex st; isResize := v;
     sortGate := sortGate st; draggablePools := draggablePools st;
     maskDisplay := maskDisplay st; maskClassName := maskClassName st; body := body st;
     clones := clones st; localStorage := localStorage st; dragCalls := dragCalls st |}.

Definition set_sortGate (v : Debounced PositionItem.t) (st : XDraggable) : XDraggable :=
  {| options := options st; children := children st; elWidth := elWidth st;
     elHeight := elHeight st; elPosition := elPosition st; current := current st;
     proxyPosition := proxyPosition st; info := info st; childrenInfos := childrenInfos st;
     eventFnsDrag := eventFnsDrag st; dragIndex := dragIndex st; isResize := isResize st;
     sortGate := v; draggablePools := draggablePools st; maskDisplay := maskDisplay st;
     maskClassName := maskClassName st; body := body st; clones := clones st;
     localStorage := localStorage st; dragCalls := dragCalls st |}.

Definition set_draggablePools (v : JsObject) (st : XDraggable) : XDraggable :=
  {| options := options st; children := children st; elWidth := elWidth st;
     elHeight := elHeight st; elPosition := elPosition st; current := current st;
     proxyPosition := proxyPosition st; info := info st; childrenInfos := childrenInfos st;
     eventFnsDrag := eventFnsDrag st; dragIndex := dragIndex st; isResize := isResize st;
     sortGate := sortGate st; draggablePools := v; maskDisplay := maskDisplay st;
     maskClassName := maskClassName st; body := body st; clones := clones st;
     localStorage := localStorage st; dragCalls := dragCalls st |}.

Definition set_maskDisplay (v : bool) (st : XDraggable) : XDraggable :=
  {| options := options st; children := children st; elWidth := elWidth st;
     elHeight := elHeight st; elPosition := elPosition st; current := current st;
     proxyPosition := proxyPosition st; info := info st; childrenInfos := childrenInfos st;
     eventFnsDrag := eventFnsDrag st; dragIndex := dragIndex st; isResize := isResize st;
     sortGate := sortGate st; draggablePools := draggablePools st; maskDisplay := v;
     maskClassName := maskClassName st; body := body st; clones := clones st;
     localStorage := localStorage st; dragCalls := dragCalls st |}.

Definition set_maskClassName (v : Direction) (st : XDraggable) : XDraggable :=
  {| options := options st; children := children st; elWidth := elWidth st;
     elHeight := elHeight st; elPosition := elPosition st; current := current st;
     proxyPosition := proxyPosition st; info := info st; childrenInfos := childrenInfos st;
     eventFnsDrag := eventFnsDrag st; dragIndex := dragIndex st; isResize := isResize st;
     sortGate := sortGate st; draggablePools := draggablePools st;
     maskDisplay := maskDisplay st; maskClassName := v; body := body st;
     clones := clones st; localStorage := localStorage st; dragCalls := dragCalls st |}.

Definition set_body (v : list Node) (st : XDraggable) : XDraggable :=
  {| options := options st; children := children st; elWidth := elWidth st;
     elHeight := elHeight st; elPosition := elPosition st; current := current st;
     proxyPosition := proxyPosition st; info := info st; childrenInfos := childrenInfos st;
     eventFnsDrag := eventFnsDrag st; dragIndex := dragIndex st; isResize := isResize st;
     sortGate := sortGate st; draggablePools := draggablePools st;
     maskDisplay := maskDisplay st; maskClassName := maskClassName st; body := v;
     clones := clones st; localStorage := localStorage st; dragCalls := dragCalls st |}.

Definition set_clones (v : nat) (st : XDraggable) : XDraggable :=
  {| options := options st; children := children st; elWidth := elWidth st;
     elHeight := elHeight st; elPosition := elPosition st; current := current st;
     proxyPosition := proxyPosition st; info := info st; childrenInfos := childrenInfos st;
     eventFnsDrag := eventFnsDrag st; dragIndex := dragIndex st; isResize := isResize st;
     sortGate := sortGate st; draggablePools := draggablePools st;
     maskDisplay := maskDisplay st; maskClassName := maskClassName st; body := body st;
     clones := v; localStorage := localStorage st; dragCalls := dragCalls st |}.

Definition set_localStorage (v : list (string * string)) (st : XDraggable) : XDraggable :=
  {| options := options st; children := children st; elWidth := elWidth st;
     elHeight := elHeight st; elPosition := elPosition st; current := current st;
     proxyPosition := proxyPosition st; info := info st; childrenInfos := childrenInfos st;
     eventFnsDrag := eventFnsDrag st; dragIndex := dragIndex st; isResize := isResize st;
     sortGate := sortGate st; draggablePools := draggablePools st;
     maskDisplay := maskDisplay st; maskClassName := maskClassName st; body := body st;
     clones := clones st; localStorage := v; dragCalls := dragCalls st |}.

Definition set_dragCalls (v : list (string * Z)) (st : XDraggable) : XDraggable :=
  {| options := options st; children := children st; elWidth := elWidth st;
     elHeight := elHeight st; elPosition := elPosition st; current := current st;
     proxyPosition := proxyPosition st; info := info st; childrenInfos := childrenInfos st;
     eventFnsDrag := eventFnsDrag st; dragIndex := dragIndex st; isResize := isResize st;
     sortGate := sortGate st; draggablePools := draggablePools st;
     maskDisplay := maskDisplay st; maskClassName := maskClassName st; body := body st;
     clones := clones st; localStorage := localStorage st; dragCalls := v |}.

(** ** Geometry *)

(** [computeElementPosition]: the pair is [(top, left)]. *)
Definition computeElementPosition (opts : DraggableOptions) (i : Info) (e : MouseEvent) : Z * Z :=
  let top := pageY e - offsetTop i in
  let left := pageX e - offsetLeft i in
  if negb (isAllowOut opts) && isChildren opts then
    let maxTop := parentTop i + parentHeight i - currentHeight i in
    let top :=
      if top <? parentTop i then parentTop i
      else if maxTop <? top then maxTop
      else top in
    let maxLeft := parentLeft i + parentWidth i - currentWidth i in
    let left :=
      if left <? parentLeft i then parentLeft i
      else if maxLeft <? left then maxLeft
      else left in
    (top, left)
  else (top, left).

(** The test inside the loop of [checkPoolsCoincide]. *)
Definition coincides (pool point : PositionItem.t) : bool :=
  (PositionItem.top pool <? PositionItem.top point)
  && (PositionItem.top point <? PositionItem.top pool + PositionItem.height pool)
  && (PositionItem.left pool <? PositionItem.left point)
  && (PositionItem.left point <? PositionItem.left pool + PositionItem.width pool).

(** The test on what [draggablePools[key]] is.  For a number, [pool.top] is
    [undefined], the first comparison is false and [&&] stops there. *)
Definition coincidesValue (v : PoolValue) (point : PositionItem.t) : bool :=
  match v with
  | PoolRect pool => coincides pool point
  | PoolNumber _ => false
  end.

(** The loop of [checkPoolsCoincide] over the keys [for ... in] visits. *)
Fixpoint checkEntries (entries : list (string * PoolValue)) (point : PositionItem.t)
    : string :=
  match entries with
  | [] => ""
  | (key, v) :: rest =>
      if coincidesValue v point then key else checkEntries rest point
  end.

(** [checkPoolsCoincide]. *)
Definition checkPoolsCoincide (pools : JsObject) (point : PositionItem.t) : string :=
  checkEntries (for_in pools) point.

(** The [size] of [computeElementSize]. *)
Definition computeSize (d : Direction) (i : Info) (e : MouseEvent) : Z :=
  match d with
  | DirRight => parentWidth i + (pageX e - (currentLeft i + parentWidth i))
  | DirLeft => parentWidth i + (currentLeft i - pageX e)
  | DirTop => parentHeight i + (currentTop i - pageY e)
  | DirBottom => parentHeight i + (pageY e - (currentTop i + parentHeight i))
  | DirNone => 0
  end.

(** [setElementSize].  The style takes a length that is not negative; the
    assignment of a negative one is ignored and the style keeps what it
    held. *)
Definition setElementSize (size : Z) (st : XDraggable) : XDraggable :=
  if size <? 0 then st
  else match direction (options st) with
       | DirLeft | DirRight => set_elWidth (Some size) st
       | DirTop | DirBottom => set_elHeight (Some size) st
       | DirNone => st
       end.

(** ['drag-' + this.options.resizeId + '-size']. *)
Definition storageKey (opts : DraggableOptions) : string :=
  "drag-" +:+ default "undefined" (resizeId opts) +:+ "-size".

(** [computeElementSize(e, isSave)]. *)
Definition computeElementSize (e : MouseEvent) (isSave : bool) (st : XDraggable) : XDraggable :=
  let size := computeSize (direction (options st)) (info st) e in
  let st := setElementSize size st in
  if isSave then set_localStorage (localStorage st ++ [(storageKey (options st), pretty size)]) st
  else st.

(** ** Snapshots of the layout *)

(** [updateElementInfo(e?)]. *)
Definition updateElementInfo (lay : Layout) (e : option MouseEvent) (st : XDraggable)
    : XDraggable :=
  let parent := nodeBox lay NodeEl in
  let cur := match current st with
             | Some n => nodeBox lay n
             | None => {| boxTop := 0; boxLeft := 0; boxWidth := 0; boxHeight := 0 |}
             end in
  set_info
    {| currentTop := boxTop cur;
       currentLeft := boxLeft cur;
       currentWidth := boxWidth cur;
       currentHeight := boxHeight cur;
       offsetTop := match e with Some e => offsetY e | None => 0 end;
       offsetLeft := match e with Some e => offsetX e | None => 0 end;
       parentTop := boxTop parent;
       parentLeft := boxLeft parent;
       parentWidth := boxWidth parent;
       parentHeight := boxHeight parent |} st.

(** [child.style.order] as the key it is used as. *)
Definition orderKey (o : option Z) : string :=
  match o with
  | Some z => pretty z
  | None => ""
  end.

(** The loop of [updateChildrenInfo] from child [i] on; [all] is the whole
    collection, which the layout of each child depends on. *)
Fixpoint collectChildren (lay : Layout) (all : list Child) (i : nat) (rest : list Child)
    (acc : gmap string PositionItem.t) : gmap string PositionItem.t :=
  match rest with
  | [] => acc
  | child :: rest' =>
      let b := childBox lay all i in
      collectChildren lay all (S i) rest'
        (<[orderKey (order child) :=
             PositionItem.mk (boxTop b) (boxLeft b) (boxWidth b) (boxHeight b) (Some i)]> acc)
  end.

(** [updateChildrenInfo(children)]. *)
Definition updateChildrenInfo (lay : Layout) (cs : list Child) (st : XDraggable) : XDraggable :=
  set_childrenInfos (collectChildren lay cs 0 cs ∅) st.

(** ** Construction *)

(** [initDragPoolInfo]. *)
Definition initDragPoolInfo (lay : Layout) (st : XDraggable) : XDraggable :=
  let opts := options st in
  if negb (isAllowIn opts) then st
  else match dragId opts with
       | None | Some EmptyString =>
           set_options
             {| dragId := dragId opts; isChildren := isChildren opts;
                isAllowOut := isAllowOut opts; isAllowIn := false; isSort := isSort opts;
                resizeId := resizeId opts; direction := direction opts |} st
       | Some id =>
           let st := updateElementInfo lay None st in
           let i := info st in
           set_draggablePools
             (js_set id (PositionItem.mk (parentTop i) (parentLeft i) (parentWidth i)
                           (parentHeight i) None) (draggablePools st)) st
       end.

(** The attributes the loop of [initChildren] gives child [i]. *)
Definition numberChild (i : nat) (c : Child) : Child :=
  {| order := Some (Z.of_nat i); dragIndexAttr := Some (Z.of_nat i); isHandle := isHandle c |}.

(** [initChildren]. *)
Definition initChildren (lay : Layout) (st : XDraggable) : XDraggable :=
  let opts := options st in
  if isChildren opts then
    match children st with
    | [] =>
        set_options
          {| dragId := dragId opts; isChildren := false; isAllowOut := isAllowOut opts;
             isAllowIn := isAllowIn opts; isSort := isSort opts; resizeId := resizeId opts;
             direction := direction opts |} st
    | _ =>
        let st := set_children (imap numberChild (children st)) st in
        if isSort opts then updateChildrenInfo lay (children st) st else st
    end
  else st.

(** [initDragHandleElement]: the handle becomes the last child. *)
Definition handleChild : Child := {| order := None; dragIndexAttr := None; isHandle := true |}.

Definition initDragHandleElement (st : XDraggable) : XDraggable :=
  match direction (options st) with
  | DirNone => st
  | _ => set_children (children st ++ [handleChild]) st
  end.

Definition emptyInfo : Info :=
  {| currentTop := 0; currentLeft := 0; currentWidth := 0; currentHeight := 0;
     offsetTop := 0; offsetLeft := 0; parentTop := 0; parentLeft := 0;
     parentWidth := 0; parentHeight := 0 |}.

(** The fields as the class declares them, in a page whose registry is
    [pools] and whose mask is hidden. *)
Definition fresh (opts : DraggableOptions) (kids : list Child) (pools : JsObject) : XDraggable :=
  {| options := opts; children := kids; elWidth := None; elHeight := None;
     elPosition := None; current := None; proxyPosition := None; info := emptyInfo;
     childrenInfos := ∅; eventFnsDrag := false; dragIndex := -1; isResize := false;
     sortGate := gate_init; draggablePools := pools; maskDisplay := false;
     maskClassName := DirNone; body := []; clones := 0; localStorage := [];
     dragCalls := [] |}.

(** [new XDraggable(el, options)]: [init] without the style sheet and the
    listeners, which are in [dispatch]. *)
Definition construct (lay : Layout) (opts : DraggableOptions) (kids : list Child)
    (pools : JsObject) : XDraggable :=
  initDragHandleElement (initChildren lay (initDragPoolInfo lay (fresh opts kids pools))).

(** The registry after a series of constructions, each with the options and
    the box of its container. *)
Definition register (pools : JsObject) (c : DraggableOptions * Box) : JsObject :=
  draggablePools
    (initDragPoolInfo {| nodeBox := λ _, c.2; childBox := λ _ _, c.2 |} (fresh c.1 [] pools)).

Definition registry (cs : list (DraggableOptions * Box)) : JsObject :=
  foldl register js_empty cs.

(** The identifier a construction registers, if it registers one. *)
Definition registeredId (c : DraggableOptions * Box) : option string :=
  if isAllowIn c.1 then
    match dragId c.1 with
    | None | Some EmptyString => None
    | Some id => Some id
    end
  else None.

(** Identifiers in the order of their first registration. *)
Definition firstRegistered (cs : list (DraggableOptions * Box)) : list string :=
  foldl (λ acc c, match registeredId c with
                  | Some id => if bool_decide (id ∈ acc) then acc else acc ++ [id]
                  | None => acc
                  end) [] cs.



(** ** The reorder check *)

(** [el.style.order = v + ''] for the child at position [a]. *)
Definition writeOrder (a : nat) (v : Z) (cs : list Child) : list Child :=
  alter (λ c, {| order := Some v; dragIndexAttr := dragIndexAttr c; isHandle := isHandle c |})
    a cs.

(** The neighbour the check selects: the local [index] before the guard. *)
Definition sortTarget (st : XDraggable) (point : PositionItem.t) : Z :=
  let idx := dragIndex st in
  match childrenInfos st !! pretty (idx - 1) with
  | Some up =>
      if PositionItem.top point - 10 <=? PositionItem.top up then idx - 1
      else match childrenInfos st !! pretty (idx + 1) with
           | Some dn => if PositionItem.top dn <=? PositionItem.top point + 10 then idx + 1 else -1
           | None => -1
           end
  | None =>
      match childrenInfos st !! pretty (idx + 1) with
      | Some dn => if PositionItem.top dn <=? PositionItem.top point + 10 then idx + 1 else -1
      | None => -1
      end
  end.

(** Lines 278-283: the two order values, the two entries, the index. *)
Definition swapWith (index : Z) (st : XDraggable) : option XDraggable :=
  me ← childrenInfos st !! pretty (dragIndex st);
  a ← PositionItem.el me;
  let st1 := set_children (writeOrder a index (children st)) st in
  other ← childrenInfos st1 !! pretty index;
  b ← PositionItem.el other;
  let st2 := set_children (writeOrder b (dragIndex st1) (children st1)) st1 in
  let temp := me in
  let st3 := set_childrenInfos (<[pretty (dragIndex st2) := other]> (childrenInfos st2)) st2 in
  let st4 := set_childrenInfos (<[pretty index := temp]> (childrenInfos st3)) st3 in
  Some (set_dragIndex index st4).

(** The function given to [debounce]: what one execution of the check does. *)
Definition sortBody (lay : Layout) (point : PositionItem.t) (st : XDraggable) : option XDraggable :=
  let index := sortTarget st point in
  if (0 <=? index) && bool_decide (is_Some (childrenInfos st !! pretty (dragIndex st))) then
    st' ← swapWith index st;
    Some (updateChildrenInfo lay (children st') st')
  else Some st.

(** [this.checkChildrenSort(info)] at time [now]: through the gate. *)
Definition checkChildrenSort (now : Z) (lay : Layout) (point : PositionItem.t) (st : XDraggable)
    : option XDraggable :=
  let '(g, inv) := debounced now point (sortGate st) in
  let st := set_sortGate g st in
  match inv with
  | Some args => sortBody lay args st
  | None => Some st
  end.

(** The timer of the gate running at time [now]. *)
Definition sortTimer (now : Z) (lay : Layout) (st : XDraggable) : option XDraggable :=
  let '(g, inv) := timerExpired now (sortGate st) in
  let st := set_sortGate g st in
  match inv with
  | Some args => sortBody lay args st
  | None => Some st
  end.

(** ** Pointer handlers *)

(** [reanderCurrentStyle({ top, left })]. *)
Definition reanderCurrentStyle (position : Z * Z) (st : XDraggable) : option XDraggable :=
  match current st with
  | Some NodeEl => Some (set_elPosition (Some position) st)
  | Some (NodeProxy _) => Some (set_proxyPosition (Some position) st)
  | None => None
  end.

(** [document.body.removeChild(this.$current!)]. *)
Definition removeCurrent (st : XDraggable) : option XDraggable :=
  match current st with
  | Some n =>
      if bool_decide (n ∈ body st) then Some (set_body (filter (λ m, m ≠ n) (body st)) st)
      else None
  | None => None
  end.

(** [parseInt(s || '-1')] on an order value or a [drag-index] attribute. *)
Definition parseIntOr (o : option Z) : Z := default (-1) o.

(** The element [cloneNode] copies: its order value and its attribute. *)
Definition targetChild (st : XDraggable) (e : MouseEvent) : option Child :=
  if isChildren (options st) then
    match target e with
    | TargetChild i => children st !! i
    | TargetEl => None
    end
  else None.

(** The [mousedown] branch of [handleDraggable]. *)
Definition startDrag (lay : Layout) (e : MouseEvent) (st : XDraggable) : XDraggable :=
  let source := targetChild st e in
  let proxy := NodeProxy (clones st) in
  let st := set_clones (S (clones st)) st in
  let st := set_current (Some proxy) st in
  let st := set_proxyPosition None st in
  let st := set_maskDisplay true st in
  let st :=
    if isSort (options st) then set_dragIndex (parseIntOr (source ≫= order)) st
    else set_dragIndex (parseIntOr (source ≫= dragIndexAttr)) st in
  let st := set_body (body st ++ [proxy]) st in
  updateElementInfo lay (Some e) st.

(** The [mouseup] branch of [handleDraggable]. *)
Definition endDrag (e : MouseEvent) (st : XDraggable) : option XDraggable :=
  let st := set_maskDisplay false st in
  let st := set_maskClassName DirNone st in
  let st :=
    if isAllowOut (options st) then
      let id := checkPoolsCoincide (draggablePools st)
                  (PositionItem.mk (pageY e) (pageX e) 0 0 None) in
      if negb (bool_decide (id = "")) && eventFnsDrag st
      then set_dragCalls (dragCalls st ++ [(id, dragIndex st)]) st
      else st
    else st in
  removeCurrent st.

(** [handleDraggable]. *)
Definition handleDraggable (now : Z) (lay : Layout) (e : MouseEvent) (st : XDraggable)
    : option XDraggable :=
  let st := match etype e with mousedown => startDrag lay e st | _ => st end in
  let position := computeElementPosition (options st) (info st) e in
  st ← reanderCurrentStyle position st;
  match etype e with
  | mouseup => endDrag e st
  | mousemove => checkChildrenSort now lay (PositionItem.mk position.1 position.2 0 0 None) st
  | mousedown => Some st
  end.

(** [handleResize]. *)
Definition handleResize (lay : Layout) (e : MouseEvent) (st : XDraggable) : XDraggable :=
  match etype e with
  | mouseup =>
      let st := computeElementSize e true st in
      let st := set_maskDisplay false st in
      let st := set_maskClassName DirNone st in
      set_isResize false st
  | mousemove => computeElementSize e false st
  | mousedown =>
      let st := set_maskDisplay true st in
      let st := set_maskClassName (direction (options st)) st in
      let st := set_current (Some NodeEl) st in
      let st := set_isResize true st in
      updateElementInfo lay (Some e) st
  end.

(** [handleUserMove]. *)
Definition handleUserMove (now : Z) (lay : Layout) (e : MouseEvent) (st : XDraggable)
    : option XDraggable :=
  if isResize st then Some (handleResize lay e st) else handleDraggable now lay e st.

(** Whether [e.target] is the resize handle, whose own [mousedown] listener
    runs before the container's. *)
Definition onHandle (e : MouseEvent) (st : XDraggable) : bool :=
  match target e with
  | TargetChild i => match children st !! i with Some c => isHandle c | None => false end
  | TargetEl => false
  end.

(** What the page delivers to the instance. *)
Inductive Input :=
  | OnDrag                                              (* [on('drag', fn)] *)
  | Pointer (now : Z) (lay : Layout) (e : MouseEvent)   (* a mouse event *)
  | Timer (now : Z) (lay : Layout).                     (* the timer of the gate *)

(** The listeners: [mousedown] on the container (after the handle's own
    listener, when the handle is the target), [mousemove] and [mouseup] on
    the mask, and the time-out of the gate. *)
Definition dispatch (i : Input) (st : XDraggable) : option XDraggable :=
  match i with
  | OnDrag => Some (set_eventFnsDrag true st)
  | Pointer now lay e =>
      match etype e with
      | mousedown =>
          let st := if onHandle e st then set_isResize true st else st in
          handleUserMove now lay e st
      | _ => handleUserMove now lay e st
      end
  | Timer now lay => sortTimer now lay st
  end.

(** Which inputs can arrive in a page where the instance is the only one:
    the mask, when displayed, covers the viewport and takes every mouse
    event; hidden, it takes none.  A child named as a target exists, and a
    timer runs only while one is set.

    The mask's listeners call the handler of [_this], the instance that was
    constructed or pressed last, and a press inside a container nested in
    another reaches both.  With several instances on a page an instance can
    therefore be addressed without a gesture of its own, or miss the end of
    one; such pages are not described here. *)
Definition deliverable (i : Input) (st : XDraggable) : Prop :=
  match i with
  | OnDrag => True
  | Pointer _ _ e =>
      match etype e with
      | mousedown =>
          maskDisplay st = false ∧
          match target e with
          | TargetChild i => (i < length (children st))%nat
          | TargetEl => True
          end
      | _ => maskDisplay st = true
      end
  | Timer _ _ => is_Some (timerId (sortGate st))
  end.

(** The states an instance passes through from [st0], driven by the inputs
    such a page delivers. *)
Inductive reachableFrom (st0 : XDraggable) : XDraggable → Prop :=
  | reachable_start : reachableFrom st0 st0
  | reachable_dispatch st i st' :
      reachableFrom st0 st → deliverable i st → dispatch i st = Some st' →
      reachableFrom st0 st'.

(** The states of an instance constructed in a page where earlier
    constructions [cs] filled the registry, and alone on it since. *)
Definition reachable (st : XDraggable) : Prop :=
  ∃ lay opts kids cs, reachableFrom (construct lay opts kids (registry cs)) st.

(** A run of inputs, stopping at the first exception. *)
Fixpoint runInputs (inputs : list Input) (st : XDraggable) : option XDraggable :=
  match inputs with
  | [] => Some st
  | i :: rest => st' ← dispatch i st; runInputs rest st'
  end.

(** ** Statements and data used by the properties *)

(** The position lies in the container: both ranges of the clamp. *)
Definition withinContainer (i : Info) (position : Z * Z) : Prop :=
  parentTop i ≤ position.1 ≤ parentTop i + parentHeight i - currentHeight i
  ∧ parentLeft i ≤ position.2 ≤ parentLeft i + parentWidth i - currentWidth i.

Definition clampingOptions : DraggableOptions :=
  {| dragId := None; isChildren := true; isAllowOut := false; isAllowIn := false;
     isSort := false; resizeId := None; direction := DirNone |}.

(** A child twice as tall as its container, grabbed at its corner. *)
Definition tallChildInfo : Info :=
  {| currentTop := 0; currentLeft := 0; currentWidth := 10; currentHeight := 20;
     offsetTop := 0; offsetLeft := 0; parentTop := 0; parentLeft := 0;
     parentWidth := 10; parentHeight := 10 |}.

(** A child 100 by 50 grabbed 5px inside its corner, in a container 100 by
    150 whose corner is at (30, 20). *)
Definition childInfo : Info :=
  {| currentTop := 0; currentLeft := 0; currentWidth := 100; currentHeight := 50;
     offsetTop := 5; offsetLeft := 5; parentTop := 20; parentLeft := 30;
     parentWidth := 100; parentHeight := 150 |}.

Definition pointerAt (ty : EventType) (x y : Z) : MouseEvent :=
  {| etype := ty; pageX := x; pageY := y; offsetX := 0; offsetY := 0; target := TargetEl |}.





(** A container that registers the rectangle of the spec's scenario,
    top 100, left 100, 200 wide and 100 high, under [id]. *)
Definition dropTarget (id : string) : DraggableOptions * Box :=
  ({| dragId := Some id; isChildren := false; isAllowOut := false; isAllowIn := true;
      isSort := false; resizeId := None; direction := DirNone |},
   {| boxTop := 100; boxLeft := 100; boxWidth := 200; boxHeight := 100 |}).

Definition pagePoint (x y : Z) : PositionItem.t := PositionItem.mk y x 0 0 None.

(** The order values [0], ..., [n-1] as [style.order] holds them. *)
Definition orderRange (n : nat) : list (option Z) := (λ i, Some (Z.of_nat i)) <$> seq 0 n.

(** The keys ["0"], ..., up to [n-1], of the sibling order table. *)
Definition indexKeys (n : nat) : gset string := list_to_set (orderKey <$> orderRange n).

(** The sibling order table is in step with the children: the [n] children
    numbered at construction carry each of the order values once, the
    children [hs] after them (the resize handle) carry none, and the table is
    what [updateChildrenInfo] builds from the children, with or without
    [hs]. *)
Definition tracked (n : nat) (hs : list Child) (st : XDraggable) : Prop :=
  ∃ cs lay used,
    children st = cs ++ hs
    ∧ length cs = n
    ∧ order <$> cs ≡ₚ orderRange n
    ∧ Forall (λ c, order c = None) hs
    ∧ (used = cs ∨ used = cs ++ hs)
    ∧ childrenInfos st = collectChildren lay used 0 used ∅.

(** Either nothing is tracked or [n] children are. *)
Definition sortInvariant (n : nat) (hs : list Child) (st : XDraggable) : Prop :=
  childrenInfos st = ∅ ∨ tracked n hs st.

(** The children [initDragHandleElement] appends. *)
Definition handles (opts : DraggableOptions) : list Child :=
  match direction opts with
  | DirNone => []
  | _ => [handleChild]
  end.

(** Two states with the same options, children, table and registry. *)
Definition sameSortData (st st' : XDraggable) : Prop :=
  options st' = options st
  ∧ children st' = children st
  ∧ childrenInfos st' = childrenInfos st
  ∧ draggablePools st' = draggablePools st.

(** [st'] differs from [st] in nothing but the children's order values, the
    table and the drag index. *)
Definition onlySortChanged (st st' : XDraggable) : Prop :=
  st' = set_dragIndex (dragIndex st')
          (set_childrenInfos (childrenInfos st') (set_children (children st') st)).

(** The outcome of a reorder as the check describes it: in [st'] the
    dragged element, tracked at the drag index of [st], and the element at
    [target] have exchanged their order values and their places in the
    table, and the drag index is [target]; nothing else has changed. *)
Definition exchanged (st : XDraggable) (target : Z) (st' : XDraggable) : Prop :=
  ∃ me nb a b,
    childrenInfos st !! pretty (dragIndex st) = Some me
    ∧ PositionItem.el me = Some a
    ∧ childrenInfos st !! pretty target = Some nb
    ∧ PositionItem.el nb = Some b
    ∧ children st' = writeOrder b (dragIndex st) (writeOrder a target (children st))
    ∧ order <$> children st' !! a = Some (Some target)
    ∧ order <$> children st' !! b = Some (Some (dragIndex st))
    ∧ PositionItem.el <$> childrenInfos st' !! pretty target = Some (Some a)
    ∧ PositionItem.el <$> childrenInfos st' !! pretty (dragIndex st) = Some (Some b)
    ∧ dragIndex st' = target
    ∧ onlySortChanged st st'.

(** The entry [updateChildrenInfo] files for the child at position [j]. *)
Definition childEntry (lay : Layout) (cs : list Child) (j : nat) : PositionItem.t :=
  PositionItem.mk (boxTop (childBox lay cs j)) (boxLeft (childBox lay cs j))
    (boxWidth (childBox lay cs j)) (boxHeight (childBox lay cs j)) (Some j).

(** The table is rebuilt from the layout: it is what [updateChildrenInfo()]
    builds from the children as they are, so that the entry under the order
    value of a child holds the box the layout gives that child now. *)
Definition rebuilt (lay : Layout) (st : XDraggable) : Prop :=
  childrenInfos st = collectChildren lay (children st) 0 (children st) ∅
  ∧ ∀ j c k, children st !! j = Some c → order c = Some k →
      childrenInfos st !! pretty k = Some (childEntry lay (children st) j).

(** While the mask is displayed a gesture is in progress: a resize, or a
    drag whose proxy is attached to the body.  While it is hidden no resize
    is pending. *)
Definition gestureInvariant (st : XDraggable) : Prop :=
  if maskDisplay st then
    isResize st = true ∨ ∃ id, current st = Some (NodeProxy id) ∧ NodeProxy id ∈ body st
  else isResize st = false.

(** Inputs that are moves of the pointer. *)
Definition isMove (i : Input) : Prop :=
  match i with
  | Pointer _ _ e => etype e = mousemove
  | _ => False
  end.

(** Inputs that can run the reorder check: moves and time-outs. *)
Definition runsCheck (i : Input) : Prop :=
  match i with
  | Pointer _ _ e => etype e = mousemove
  | Timer _ _ => True
  | OnDrag => False
  end.

(** *** A column of three children

    The container of the spec's reorder scenario: three children laid out
    in a column, 50 high each, in the order of their order values, so their
    tops are 0, 50 and 100.  The container is at the origin of the page, 100
    wide and 150 high; a proxy is 100 by 50. *)
Definition columnLayout : Layout :=
  {| nodeBox := λ n,
       match n with
       | NodeEl => {| boxTop := 0; boxLeft := 0; boxWidth := 100; boxHeight := 150 |}
       | NodeProxy _ => {| boxTop := 0; boxLeft := 0; boxWidth := 100; boxHeight := 50 |}
       end;
     childBox := λ cs i,
       {| boxTop := 50 * default 0 (cs !! i ≫= order); boxLeft := 0;
          boxWidth := 100; boxHeight := 50 |} |}.

Definition plainChild : Child := {| order := None; dragIndexAttr := None; isHandle := false |}.

(** Children-mode, sorting and drag-out all on; [d] is the resize edge. *)
Definition sortableOptions (d : Direction) : DraggableOptions :=
  {| dragId := None; isChildren := true; isAllowOut := true; isAllowIn := false;
     isSort := true; resizeId := Some "panelA"; direction := d |}.

Definition sortableList (d : Direction) : XDraggable :=
  construct columnLayout (sortableOptions d) [plainChild; plainChild; plainChild]
    (registry [dropTarget "trayB"]).

(** A pointer event at page point [(x, y)] on target [tg], grabbed 5px
    inside the target. *)
Definition pointerOn (ty : EventType) (x y : Z) (tg : Target) : MouseEvent :=
  {| etype := ty; pageX := x; pageY := y; offsetX := 5; offsetY := 5; target := tg |}.

(** The first child is grabbed, moved so that its top is at 45, and
    released over the drop target. *)
Definition grabFirst : Input := Pointer 0 columnLayout (pointerOn mousedown 5 5 (TargetChild 0)).
Definition moveDown : Input := Pointer 10 columnLayout (pointerOn mousemove 150 50 TargetEl).
Definition releaseOverTray : Input :=
  Pointer 20 columnLayout (pointerOn mouseup 150 150 TargetEl).

(** The container itself is grabbed: the clone has no order value. *)
Definition grabContainer : Input :=
  Pointer 0 columnLayout (pointerOn mousedown 5 5 TargetEl).

(** The state a run of inputs ends in, the state itself if it throws. *)
Definition after (inputs : list Input) (st : XDraggable) : XDraggable :=
  default st (runInputs inputs st).

(** *** A resizable panel

    The panel of the spec's resize scenario: left edge at 50, 300 wide, with
    a handle on its right edge and the resize identifier ["panelA"]. *)
Definition panelLayout : Layout :=
  {| nodeBox := λ _, {| boxTop := 0; boxLeft := 50; boxWidth := 300; boxHeight := 200 |};
     childBox := λ _ _, {| boxTop := 0; boxLeft := 295; boxWidth := 5; boxHeight := 200 |} |}.

Definition panelOptions : DraggableOptions :=
  {| dragId := None; isChildren := false; isAllowOut := false; isAllowIn := false;
     isSort := false; resizeId := Some "panelA"; direction := DirRight |}.

Definition panelA : XDraggable := construct panelLayout panelOptions [] (registry []).






(** The handle is pressed, the pointer moves to x = 380 and is released at
    x = 400. *)
Definition pressHandle : Input :=
  Pointer 0 panelLayout (pointerOn mousedown 348 100 (TargetChild 0)).
Definition dragHandle : Input := Pointer 10 panelLayout (pointerOn mousemove 380 100 TargetEl).
Definition releaseHandle : Input := Pointer 20 panelLayout (pointerOn mouseup 400 100 TargetEl).

(** A container that does not sort, with two children. *)
Definition plainList : XDraggable :=
  construct columnLayout clampingOptions [plainChild; plainChild] (registry []).

(** ** Statements and data for further properties *)

(** The rectangle a construction registers: the box of its container. *)
Definition registeredRect (c : DraggableOptions * Box) : PositionItem.t :=
  PositionItem.mk (boxTop c.2) (boxLeft c.2) (boxWidth c.2) (boxHeight c.2) None.

(** The rectangle of the last construction that registered [id], if any. *)
Definition lastRegistered (cs : list (DraggableOptions * Box)) (id : string)
    : option PositionItem.t :=
  foldl (λ acc c, if bool_decide (registeredId c = Some id) then Some (registeredRect c) else acc)
    None cs.




(** No child of the container is a resize handle. *)
Definition noHandle (cs : list Child) : Prop := Forall (λ c, isHandle c = false) cs.

(** A press on the [i]-th child. *)
Definition pressEvent (x y ox oy : Z) (i : nat) : MouseEvent :=
  {| etype := mousedown; pageX := x; pageY := y; offsetX := ox; offsetY := oy;
     target := TargetChild i |}.

Definition pressChild (now : Z) (lay : Layout) (x y ox oy : Z) (i : nat) : Input :=
  Pointer now lay (pressEvent x y ox oy i).

(** A run in which the page can deliver each input in turn. *)
Fixpoint deliverableRun (inputs : list Input) (st : XDraggable) : Prop :=
  match inputs with
  | [] => True
  | i :: rest =>
      deliverable i st
      ∧ match dispatch i st with
        | Some st' => deliverableRun rest st'
        | None => False
        end
  end.

(** The table entry at the drag index names the child at position [a]. *)
Definition tracks (a : nat) (st : XDraggable) : Prop :=
  PositionItem.el <$> childrenInfos st !! pretty (dragIndex st) = Some (Some a).

(** The position before the clamp: the pointer minus the offset of the
    grab. *)
Definition rawPosition (i : Info) (e : MouseEvent) : Z * Z :=
  (pageY e - offsetTop i, pageX e - offsetLeft i).

(** Two children that carry the same order value. *)
Definition twins : list Child :=
  [{| order := Some 0; dragIndexAttr := None; isHandle := false |};
   {| order := Some 0; dragIndexAttr := None; isHandle := false |}].

(** * Properties *)

(** ** The clamp of [computeElementPosition] *)

Lemma clamp_between (lo hi x : Z) :
  lo ≤ hi →
  lo ≤ (if x <? lo then lo else if hi <? x then hi else x) ≤ hi.
Proof.
  intros Hle.
  destruct (Z.ltb_spec x lo); [lia|].
  destruct (Z.ltb_spec hi x); lia.
Qed.

(** C1, as amended: with drag-out disallowed and children-mode on, the
    position computed for any pointer position lies in the container,
    provided the grabbed element is no taller and no wider than it. *)
Theorem computeElementPosition_within (opts : DraggableOptions) (i : Info) (e : MouseEvent) :
  isAllowOut opts = false →
  isChildren opts = true →
  currentHeight i ≤ parentHeight i →
  currentWidth i ≤ parentWidth i →
  withinContainer i (computeElementPosition opts i e).
Proof.
  intros Hout Hch Hh Hw.
  unfold computeElementPosition, withinContainer.
  rewrite Hout, Hch. simpl.
  split; apply clamp_between; lia.
Qed.

Lemma computeElementPosition_within_witness :
  computeElementPosition clampingOptions childInfo (pointerAt mousemove 400 (-3)) = (20, 30)
  ∧ withinContainer childInfo
      (computeElementPosition clampingOptions childInfo (pointerAt mousemove 400 (-3))).
Proof.
  split; [reflexivity|].
  apply computeElementPosition_within; [reflexivity | reflexivity | simpl; lia | simpl; lia].
Defined.

(** C1 as stated fails: for an element taller than the container the
    clamp returns [maxTop], which is above the container's top. *)
Lemma computeElementPosition_outside :
  isAllowOut clampingOptions = false
  ∧ isChildren clampingOptions = true
  ∧ computeElementPosition clampingOptions tallChildInfo (pointerAt mousemove 0 5) = (-10, 0)
  ∧ ¬ withinContainer tallChildInfo
        (computeElementPosition clampingOptions tallChildInfo (pointerAt mousemove 0 5)).
Proof.
  repeat split; try reflexivity.
  unfold withinContainer. vm_compute. intros [[H _] _]. apply H. reflexivity.
Qed.

(** ** The drop registry *)

(** *** Own properties *)



Lemma has_key_elem (key : string) (o : JsProps) :
  has_key key o = bool_decide (key ∈ own_keys o).
Proof.
  induction o as [|[k w] rest IH]; [done|].
  unfold own_keys in *. cbn [has_key existsb fmap list_fmap fst].
  fold (has_key key rest). rewrite IH.
  destruct (decide (k = key)) as [->|Hne].
  - rewrite (bool_decide_eq_true_2 (key = key)) by done. simpl.
    symmetry. apply bool_decide_eq_true_2. left.
  - rewrite (bool_decide_eq_false_2 (k = key)) by done. simpl.
    apply bool_decide_ext. rewrite elem_of_cons. split; [by right | by intros [?|?]].
Qed.

Lemma replace_value_keys key v (o : JsProps) :
  own_keys (replace_value key v o) = own_keys o.
Proof.
  induction o as [|[k w] rest IH]; [done|].
  unfold own_keys in *. simpl. case_bool_decide; [done|].
  rewrite fmap_cons. by f_equal.
Qed.


Lemma insert_index_keys_perm n key v (o : JsProps) :
  own_keys (insert_index n key v o) ≡ₚ key :: own_keys o.
Proof.
  unfold own_keys. induction o as [|[k w] rest IH]; [done|]. simpl.
  destruct (array_index k) as [m|]; [destruct (m <? n)%N|]; simpl; [|done..].
  rewrite IH. apply perm_swap.
Qed.

Lemma own_set_keys_perm key v (o : JsProps) :
  own_keys (own_set key v o)
  ≡ₚ if bool_decide (key ∈ own_keys o) then own_keys o else key :: own_keys o.
Proof.
  unfold own_set. rewrite has_key_elem. case_bool_decide as Hin.
  - by rewrite replace_value_keys.
  - destruct (array_index key) as [n|].
    + apply insert_index_keys_perm.
    + unfold own_keys. rewrite fmap_app. simpl. by rewrite <- Permutation_cons_append.
Qed.

Lemma own_set_keys key v (o : JsProps) x :
  x ∈ own_keys (own_set key v o) ↔ x = key ∨ x ∈ own_keys o.
Proof.
  rewrite own_set_keys_perm. case_bool_decide as Hin.
  - split; [by right | by intros [-> | ?]].
  - by rewrite elem_of_cons.
Qed.

Lemma own_set_NoDup key v (o : JsProps) :
  NoDup (own_keys o) → NoDup (own_keys (own_set key v o)).
Proof.
  intros Hnd. rewrite own_set_keys_perm. case_bool_decide as Hin; [done|].
  by apply NoDup_cons.
Qed.

Lemma own_get_replace_eq key v (o : JsProps) :
  has_key key o = true → own_get key (replace_value key v o) = Some v.
Proof.
  induction o as [|[k w] rest IH]; [done|]. simpl.
  destruct (decide (k = key)) as [->|Hne].
  - intros _. rewrite !bool_decide_eq_true_2 by done. simpl.
    by rewrite bool_decide_eq_true_2.
  - rewrite !(bool_decide_eq_false_2 (k = key)) by done. simpl.
    rewrite (bool_decide_eq_false_2 (k = key)) by done. apply IH.
Qed.

Lemma own_get_replace_ne key key' v (o : JsProps) :
  key ≠ key' → own_get key' (replace_value key v o) = own_get key' o.
Proof.
  intros Hne. induction o as [|[k w] rest IH]; [done|]. simpl.
  destruct (decide (k = key)) as [->|Hk].
  - rewrite bool_decide_eq_true_2 by done. simpl.
    by rewrite !(bool_decide_eq_false_2 (key = key')).
  - rewrite (bool_decide_eq_false_2 (k = key)) by done. simpl. by rewrite IH.
Qed.

Lemma own_get_absent key (o : JsProps) : has_key key o = false → own_get key o = None.
Proof.
  induction o as [|[k w] rest IH]; [done|]. simpl.
  destruct (decide (k = key)) as [->|Hk].
  - by rewrite !bool_decide_eq_true_2.
  - rewrite !(bool_decide_eq_false_2 (k = key)) by done. simpl. apply IH.
Qed.

Lemma own_get_insert_index_eq n key v (o : JsProps) :
  has_key key o = false → own_get key (insert_index n key v o) = Some v.
Proof.
  induction o as [|[k w] rest IH]; simpl.
  - intros _. by rewrite bool_decide_eq_true_2.
  - destruct (decide (k = key)) as [->|Hk].
    + by rewrite !bool_decide_eq_true_2.
    + rewrite (bool_decide_eq_false_2 (k = key)) by done. simpl. intros Habs.
      destruct (array_index k) as [m|]; [destruct (m <? n)%N|]; simpl;
        rewrite ?(bool_decide_eq_false_2 (k = key)), ?(bool_decide_eq_true_2 (key = key));
        by auto.
Qed.

Lemma own_get_insert_index_ne n key key' v (o : JsProps) :
  key ≠ key' → own_get key' (insert_index n key v o) = own_get key' o.
Proof.
  intros Hne. induction o as [|[k w] rest IH]; simpl.
  - by rewrite bool_decide_eq_false_2.
  - destruct (array_index k) as [m|]; [destruct (m <? n)%N|]; simpl;
      rewrite ?IH, ?(bool_decide_eq_false_2 (key = key')); done.
Qed.

Lemma own_get_app_ne key key' v (o : JsProps) :
  key ≠ key' → own_get key' (o ++ [(key, v)]) = own_get key' o.
Proof.
  intros Hne. induction o as [|[k w] rest IH]; simpl.
  - by rewrite bool_decide_eq_false_2.
  - by rewrite IH.
Qed.

Lemma own_get_app_eq key v (o : JsProps) :
  has_key key o = false → own_get key (o ++ [(key, v)]) = Some v.
Proof.
  induction o as [|[k w] rest IH]; simpl.
  - intros _. by rewrite bool_decide_eq_true_2.
  - destruct (decide (k = key)) as [->|Hk].
    + by rewrite !bool_decide_eq_true_2.
    + rewrite !(bool_decide_eq_false_2 (k = key)) by done. simpl. apply IH.
Qed.

(** Reading back what was written, and what was not touched. *)
Lemma own_get_set_eq key v (o : JsProps) : own_get key (own_set key v o) = Some v.
Proof.
  unfold own_set. destruct (has_key key o) eqn:Hkey.
  - by apply own_get_replace_eq.
  - destruct (array_index key); [by apply own_get_insert_index_eq | by apply own_get_app_eq].
Qed.

Lemma own_get_set_ne key key' v (o : JsProps) :
  key ≠ key' → own_get key' (own_set key v o) = own_get key' o.
Proof.
  intros Hne. unfold own_set. destruct (has_key key o).
  - by apply own_get_replace_ne.
  - destruct (array_index key); [by apply own_get_insert_index_ne | by apply own_get_app_ne].
Qed.

(** With distinct keys, the entries are what a read by key gives. *)
Lemma own_get_elem (o : JsProps) id pool :
  NoDup (own_keys o) → (id, pool) ∈ o ↔ own_get id o = Some pool.
Proof.
  unfold own_keys. induction o as [|[k w] rest IH].
  - intros _. split; [by intros ?%elem_of_nil | done].
  - rewrite fmap_cons. intros [Hk Hrest]%NoDup_cons. simpl in Hk. cbn [own_get].
    rewrite elem_of_cons. case_bool_decide as Heq.
    + subst k. split.
      * intros [Hhd | Hin]; [congruence|]. exfalso. apply Hk.
        apply list_elem_of_fmap. by exists (id, pool).
      * intros [= ->]. by left.
    + rewrite <- (IH Hrest). split; [intros [?|?]; [congruence | done] | by right].
Qed.

(** *** The object *)







Lemma js_set_plain key v (o : JsObject) :
  key ≠ "__proto__" →
  own (js_set key v o) = own_set key v (own o) ∧ proto (js_set key v o) = proto o.
Proof. intros Hne. unfold js_set. by rewrite bool_decide_eq_false_2. Qed.

Lemma js_set_proto v (o : JsObject) :
  own (js_set "__proto__" v o) = own o ∧ proto (js_set "__proto__" v o) = Some v.
Proof. done. Qed.

Lemma js_set_NoDup key v (o : JsObject) :
  NoDup (js_keys o) → NoDup (js_keys (js_set key v o)).
Proof.
  unfold js_keys, js_set. case_bool_decide; [done|]. simpl. apply own_set_NoDup.
Qed.

(** *** Registrations *)

Lemma register_spec (pools : JsObject) (c : DraggableOptions * Box) :
  register pools c =
    match registeredId c with
    | Some id => js_set id (registeredRect c) pools
    | None => pools
    end.
Proof.
  destruct c as [opts box]. unfold register, registeredId, initDragPoolInfo. simpl.
  destruct (isAllowIn opts); simpl; [|done].
  destruct (dragId opts) as [[|a s]|]; done.
Qed.

Lemma registry_snoc cs c : registry (cs ++ [c]) = register (registry cs) c.
Proof. unfold registry. by rewrite foldl_snoc. Qed.

Lemma firstRegistered_snoc cs c :
  firstRegistered (cs ++ [c]) =
    match registeredId c with
    | Some id => if bool_decide (id ∈ firstRegistered cs) then firstRegistered cs
                 else firstRegistered cs ++ [id]
    | None => firstRegistered cs
    end.
Proof. unfold firstRegistered. by rewrite foldl_snoc. Qed.

Lemma lastRegistered_snoc cs c id :
  lastRegistered (cs ++ [c]) id =
    if bool_decide (registeredId c = Some id) then Some (registeredRect c)
    else lastRegistered cs id.
Proof. unfold lastRegistered. by rewrite foldl_snoc. Qed.


Lemma registry_NoDup cs : NoDup (js_keys (registry cs)).
Proof.
  induction cs as [|c cs IH] using rev_ind; [constructor|].
  rewrite registry_snoc, register_spec.
  destruct (registeredId c); [by apply js_set_NoDup | done].
Qed.

(** What the registry holds after a series of constructions: under an
    identifier other than [__proto__] the rectangle registered last, under
    [__proto__] nothing, and as its prototype the rectangle registered last
    as [__proto__]. *)
Lemma registry_own_get cs id :
  own_get id (own (registry cs))
  = if bool_decide (id = "__proto__") then None else lastRegistered cs id.
Proof.
  induction cs as [|c cs IH] using rev_ind; [by case_bool_decide|].
  rewrite registry_snoc, lastRegistered_snoc, register_spec.
  destruct (registeredId c) as [id'|] eqn:Hid.
  - destruct (decide (id' = "__proto__")) as [->|Hp].
    + destruct (js_set_proto (registeredRect c) (registry cs)) as [-> _].
      rewrite IH. case_bool_decide; [done|].
      rewrite bool_decide_eq_false_2; [done|]. congruence.
    + destruct (js_set_plain id' (registeredRect c) (registry cs) Hp) as [-> _].
      destruct (decide (id' = id)) as [->|Hne].
      * rewrite own_get_set_eq, bool_decide_eq_false_2 by done.
        by rewrite bool_decide_eq_true_2.
      * rewrite own_get_set_ne, IH by done.
        rewrite (bool_decide_eq_false_2 (Some id' = Some id)); [done|]. congruence.
  - by rewrite IH, (bool_decide_eq_false_2 (None = Some id)).
Qed.

Lemma registry_proto cs : proto (registry cs) = lastRegistered cs "__proto__".
Proof.
  induction cs as [|c cs IH] using rev_ind; [done|].
  rewrite registry_snoc, lastRegistered_snoc, register_spec.
  destruct (registeredId c) as [id'|] eqn:Hid.
  - destruct (decide (id' = "__proto__")) as [->|Hp].
    + by rewrite bool_decide_eq_true_2.
    + destruct (js_set_plain id' (registeredRect c) (registry cs) Hp) as [_ ->].
      rewrite IH, bool_decide_eq_false_2; [done|]. congruence.
  - by rewrite IH, bool_decide_eq_false_2.
Qed.

Lemma registry_entries cs id pool :
  (id, pool) ∈ own (registry cs) ↔ id ≠ "__proto__" ∧ lastRegistered cs id = Some pool.
Proof.
  rewrite (own_get_elem _ _ _ (registry_NoDup cs)), registry_own_get.
  case_bool_decide; split; [done | by intros [? _] | done | by intros [_ ?]].
Qed.


Lemma firstRegistered_NoDup cs : NoDup (firstRegistered cs).
Proof.
  induction cs as [|c cs IH] using rev_ind; [constructor|].
  rewrite firstRegistered_snoc.
  destruct (registeredId c) as [id|]; [|done].
  case_bool_decide; [done|].
  apply NoDup_app. split_and!; [done | | apply NoDup_singleton].
  intros x Hx ->%list_elem_of_singleton. done.
Qed.







(** ** Keys of the sibling order table *)

Lemma pretty_N_go_nonempty (x : N) (s : string) : s ≠ "" → pretty_N_go x s ≠ "".
Proof.
  revert s. induction (N.lt_wf_0 x) as [x _ IH]; intros s Hs.
  destruct (decide (x = 0)%N) as [->|Hx].
  - by rewrite pretty_N_go_0.
  - rewrite pretty_N_go_step by lia.
    apply IH; [apply N.div_lt; lia | done].
Qed.

Lemma pretty_N_nonempty (x : N) : pretty x ≠ "".
Proof.
  unfold pretty, pretty_N. case_decide; [done|].
  rewrite pretty_N_go_step by lia. by apply pretty_N_go_nonempty.
Qed.

Lemma pretty_Z_nonempty (z : Z) : pretty z ≠ "".
Proof.
  destruct z as [|p|p]; [done | apply pretty_N_nonempty | done].
Qed.

Lemma orderKey_inj (o1 o2 : option Z) : orderKey o1 = orderKey o2 → o1 = o2.
Proof.
  destruct o1 as [a|], o2 as [b|]; simpl; intros H; try done.
  - f_equal. by apply (inj pretty).
  - by apply pretty_Z_nonempty in H.
  - symmetry in H. by apply pretty_Z_nonempty in H.
Qed.

Lemma orderKey_pretty (o : option Z) (k : Z) : orderKey o = pretty k → o = Some k.
Proof. intros H. by apply (orderKey_inj o (Some k)). Qed.

Section Collect.
Context (lay : Layout) (all : list Child).
Implicit Types (rest : list Child) (acc : gmap string PositionItem.t).

Lemma collect_lookup_other rest : ∀ i acc key,
  (∀ c, c ∈ rest → orderKey (order c) ≠ key) →
  collectChildren lay all i rest acc !! key = acc !! key.
Proof.
  induction rest as [|child rest IH]; intros i acc key Hkey; [done|].
  simpl. rewrite IH by (intros c Hc; apply Hkey; by right).
  apply lookup_insert_ne. apply Hkey. left.
Qed.

Lemma collect_dom rest : ∀ i acc,
  dom (collectChildren lay all i rest acc)
  = dom acc ∪ list_to_set (orderKey <$> (order <$> rest)).
Proof.
  induction rest as [|child rest IH]; intros i acc; simpl.
  - by rewrite (right_id_L ∅ (∪)).
  - rewrite IH, dom_insert_L.
    rewrite (comm_L (∪) {[orderKey (order child)]} (dom acc)).
    by rewrite (assoc_L (∪)).
Qed.

(** Every entry names a child whose order value is the entry's key. *)
Lemma collect_entry rest : ∀ i acc key item,
  collectChildren lay all i rest acc !! key = Some item →
  acc !! key = Some item
  ∨ ∃ j c, rest !! j = Some c ∧ orderKey (order c) = key
           ∧ PositionItem.el item = Some (i + j)%nat.
Proof.
  induction rest as [|child rest IH]; intros i acc key item Hlook; [by left|].
  simpl in Hlook. apply IH in Hlook as [Hacc | (j & c & Hj & Hkey & Hel)].
  - destruct (decide (orderKey (order child) = key)) as [Heq|Hne].
    + rewrite Heq, lookup_insert_eq in Hacc. injection Hacc as <-.
      right. exists 0%nat, child. split_and!; [done | done |]. simpl. f_equal. lia.
    + rewrite lookup_insert_ne in Hacc by done. by left.
  - right. exists (S j), c. split_and!; [done | done |]. rewrite Hel. f_equal. lia.
Qed.

(** A child whose key no later child has is the one its key names. *)
Lemma collect_last rest : ∀ i acc j c,
  rest !! j = Some c →
  (∀ j' c', (j < j')%nat → rest !! j' = Some c' →
            orderKey (order c') ≠ orderKey (order c)) →
  ∃ item, collectChildren lay all i rest acc !! orderKey (order c) = Some item
          ∧ PositionItem.el item = Some (i + j)%nat.
Proof.
  induction rest as [|child rest IH]; intros i acc j c Hj Hlater; [done|].
  destruct j as [|j]; simpl in *.
  - injection Hj as ->.
    rewrite collect_lookup_other.
    + rewrite lookup_insert_eq. eexists. split; [done|]. simpl. f_equal. lia.
    + intros c' [j' Hj']%list_elem_of_lookup. apply (Hlater (S j') c'); [lia | done].
  - destruct (IH (S i) (<[orderKey (order child) :=
        PositionItem.mk (boxTop (childBox lay all i)) (boxLeft (childBox lay all i))
          (boxWidth (childBox lay all i)) (boxHeight (childBox lay all i)) (Some i)]> acc) j c Hj)
      as (item & Hitem & Hel).
    + intros j' c' Hlt Hj'. apply (Hlater (S j') c'); [lia | done].
    + exists item. split; [done|]. rewrite Hel. f_equal. lia.
Qed.
End Collect.

(** *** Order values as a permutation *)

Lemma orderRange_NoDup n : NoDup (orderRange n).
Proof.
  unfold orderRange. apply (NoDup_fmap_2 _). apply NoDup_seq.
Qed.

Lemma orderRange_elem n (o : option Z) :
  o ∈ orderRange n ↔ ∃ k, o = Some k ∧ 0 ≤ k < Z.of_nat n.
Proof.
  unfold orderRange. rewrite list_elem_of_fmap. split.
  - intros (i & -> & Hi%elem_of_seq). exists (Z.of_nat i). split; [done | lia].
  - intros (k & -> & Hk). exists (Z.to_nat k). split; [f_equal; lia|].
    apply elem_of_seq. lia.
Qed.

(** Exchanging the values at two positions of a list permutes it. *)
Lemma swap_head_Permutation {A} (l : list A) : ∀ b x y,
  l !! b = Some y → y :: <[b := x]> l ≡ₚ x :: l.
Proof.
  induction l as [|z l IH]; intros b x y Hb; [done|].
  destruct b as [|b]; simpl in *.
  - injection Hb as ->. apply perm_swap.
  - rewrite (perm_swap z y). rewrite (IH b x y Hb). apply perm_swap.
Qed.

Lemma swap_Permutation {A} (l : list A) : ∀ a b x y,
  a ≠ b → l !! a = Some x → l !! b = Some y →
  <[b := x]> (<[a := y]> l) ≡ₚ l.
Proof.
  induction l as [|z l IH]; intros a b x y Hne Ha Hb; [done|].
  destruct a as [|a], b as [|b]; simpl in *; try done.
  - injection Ha as ->. by apply swap_head_Permutation.
  - injection Hb as ->. by apply swap_head_Permutation.
  - f_equiv. apply IH; [congruence | done | done].
Qed.

(** ** What the handlers leave alone *)

Lemma sortBody_onlySortChanged lay point st st' :
  sortBody lay point st = Some st' → onlySortChanged st st'.
Proof.
  unfold sortBody, swapWith, updateChildrenInfo, onlySortChanged.
  intros H. destruct st. simpl in *.
  case_match; simplify_option_eq; done.
Qed.

Lemma sortBody_no_entry lay point st :
  childrenInfos st !! pretty (dragIndex st) = None → sortBody lay point st = Some st.
Proof.
  intros Hnone. unfold sortBody. rewrite Hnone.
  rewrite (bool_decide_eq_false_2 (is_Some None)) by by intros [? ?].
  by rewrite andb_false_r.
Qed.

Lemma sortBody_empty lay point st :
  childrenInfos st = ∅ → sortBody lay point st = Some st.
Proof. intros Hempty. apply sortBody_no_entry. by rewrite Hempty. Qed.

Ltac unfold_handlers :=
  unfold dispatch, handleUserMove, handleDraggable, handleResize, startDrag, endDrag,
    removeCurrent, reanderCurrentStyle, computeElementSize, setElementSize,
    updateElementInfo, checkChildrenSort, sortTimer in *.

Ltac same_data := unfold sameSortData; split_and!; reflexivity.

Ltac split_cases := repeat first [progress simplify_option_eq | case_match].

(** An input leaves the options, the children, the table and the registry
    alone, apart from one execution of the reorder check; an input that can
    run the check does not write the drag index by itself. *)
Lemma dispatch_sortData i st st' :
  dispatch i st = Some st' →
  (sameSortData st st' ∧ (runsCheck i → dragIndex st' = dragIndex st))
  ∨ ∃ st1 lay point,
      sameSortData st st1 ∧ dragIndex st1 = dragIndex st ∧ sortBody lay point st1 = Some st'.
Proof.
  intros H. destruct i as [|now lay e|now lay].
  - left. simpl in H. injection H as <-. split; [same_data | done].
  - unfold_handlers.
    destruct (etype e) eqn:Hty.
    + left. split; [|simpl; congruence]. split_cases; same_data.
    + destruct (isResize st) eqn:Hres.
      * left. split; [|intros _]; split_cases; (same_data || reflexivity).
      * destruct (current st) as [[|id]|] eqn:Hcur; simplify_option_eq.
        all: destruct (debounced _ _ _) as [g [args|]]; simplify_option_eq;
          [right; eexists _, lay, args; split_and!; [| |eassumption]; [same_data | reflexivity]
          | left; split; [same_data | reflexivity]].
    + left. split; [|simpl; congruence]. split_cases; same_data.
  - unfold_handlers.
    destruct (timerExpired _ _) as [g [args|]]; simplify_option_eq.
    + right. eexists _, lay, args. split_and!; [| |eassumption]; [same_data | reflexivity].
    + left. split; [same_data | reflexivity].
Qed.

(** ** The reorder check keeps the table in step *)

Lemma writeOrder_app_l a v (cs hs : list Child) :
  (a < length cs)%nat → writeOrder a v (cs ++ hs) = writeOrder a v cs ++ hs.
Proof. intros Ha. unfold writeOrder. by apply alter_app_l. Qed.

Lemma writeOrder_orders a v (cs : list Child) :
  order <$> writeOrder a v cs = <[a := Some v]> (order <$> cs).
Proof.
  unfold writeOrder. rewrite list_insert_alter.
  apply list_fmap_alter. by apply Forall_forall.
Qed.

Lemma length_writeOrder a v (cs : list Child) : length (writeOrder a v cs) = length cs.
Proof. unfold writeOrder. apply length_alter. Qed.

(** An entry under a numeric key names one of the numbered children. *)
Lemma used_entry (cs hs used : list Child) lay k item :
  Forall (λ c, order c = None) hs →
  used = cs ∨ used = cs ++ hs →
  collectChildren lay used 0 used ∅ !! pretty k = Some item →
  ∃ a ca, PositionItem.el item = Some a ∧ cs !! a = Some ca ∧ order ca = Some k.
Proof.
  intros Hhs Hused Hlook.
  apply collect_entry in Hlook as [Hempty | (a & ca & Ha & Hkey & Hel)]; [done|].
  apply orderKey_pretty in Hkey.
  exists a, ca. split_and!; [done | | done].
  destruct Hused as [-> | ->]; [done|].
  destruct (decide (a < length cs)%nat) as [Hlt|Hge].
  - by rewrite lookup_app_l in Ha.
  - rewrite lookup_app_r in Ha by lia.
    apply list_elem_of_lookup_2 in Ha.
    rewrite Forall_forall in Hhs. apply Hhs in Ha. congruence.
Qed.

(** The neighbour selected by the check, when there is one, has an entry. *)
Lemma sortTarget_cases st point :
  (sortTarget st point = dragIndex st - 1
   ∧ is_Some (childrenInfos st !! pretty (dragIndex st - 1)))
  ∨ (sortTarget st point = dragIndex st + 1
     ∧ is_Some (childrenInfos st !! pretty (dragIndex st + 1)))
  ∨ sortTarget st point = -1.
Proof.
  unfold sortTarget. repeat case_match; eauto.
Qed.

(** Among numbered children, with the others carrying no order value, the
    table built from all of them names each numbered child under its key. *)
Lemma tracked_lookup (cs hs : list Child) lay a c k :
  NoDup (order <$> cs) →
  Forall (λ c, order c = None) hs →
  cs !! a = Some c → order c = Some k →
  ∃ item, collectChildren lay (cs ++ hs) 0 (cs ++ hs) ∅ !! pretty k = Some item
          ∧ PositionItem.el item = Some a.
Proof.
  intros Hnd Hhs Ha Hk.
  replace (pretty k) with (orderKey (order c)) by by rewrite Hk.
  apply (collect_last lay (cs ++ hs) (cs ++ hs) 0 ∅ a c).
  - by apply lookup_app_l_Some.
  - intros j' c' Hlt Hj' Hkey%orderKey_inj.
    destruct (decide (j' < length cs)%nat) as [Hin|Hout].
    + rewrite lookup_app_l in Hj' by done.
      assert (a = j'); [|lia].
      apply (NoDup_lookup (order <$> cs) a j' (order c)); [done | |].
      * by rewrite list_lookup_fmap, Ha.
      * by rewrite list_lookup_fmap, Hj', <- Hkey.
    + rewrite lookup_app_r in Hj' by lia.
      apply list_elem_of_lookup_2 in Hj'.
      rewrite Forall_forall in Hhs. apply Hhs in Hj'. congruence.
Qed.

Lemma tracked_orders_NoDup n (cs : list Child) :
  order <$> cs ≡ₚ orderRange n → NoDup (order <$> cs).
Proof. intros ->. apply orderRange_NoDup. Qed.

(** In a tracked state the numeric keys of the table are those of the
    order values [0], ..., [n-1]. *)
Lemma tracked_key_range n hs st k :
  tracked n hs st → is_Some (childrenInfos st !! pretty k) → 0 ≤ k < Z.of_nat n.
Proof.
  intros (cs & lay & used & Hch & Hlen & Hperm & Hhs & Hused & Htab) [item Hitem].
  rewrite Htab in Hitem.
  destruct (used_entry cs hs used lay k item Hhs Hused Hitem) as (a & ca & _ & Ha & Hoa).
  assert (Some k ∈ orderRange n) as Hin.
  { rewrite <- Hperm, <- Hoa. apply list_elem_of_fmap_2. by eapply list_elem_of_lookup_2. }
  apply orderRange_elem in Hin as (k' & [= ->] & Hk'). done.
Qed.

(** One execution of the check in a tracked state whose drag index has an
    entry and whose selected target is another key with an entry: the two
    elements are exchanged, and the state stays tracked. *)
Lemma sortBody_exchange lay point st n hs :
  tracked n hs st →
  sortTarget st point ≠ dragIndex st →
  is_Some (childrenInfos st !! pretty (dragIndex st)) →
  is_Some (childrenInfos st !! pretty (sortTarget st point)) →
  ∃ st', sortBody lay point st = Some st'
         ∧ exchanged st (sortTarget st point) st'
         ∧ tracked n hs st'.
Proof.
  intros Htr Hne [me Hme] [nb Hnb].
  pose proof (tracked_key_range n hs st _ Htr (mk_is_Some _ _ Hnb)) as Hrange.
  destruct Htr as (cs & lay0 & used & Hch & Hlen & Hperm & Hhs & Hused & Htab).
  set (index := sortTarget st point) in *.
  pose proof Hme as Hme'. pose proof Hnb as Hnb'. rewrite Htab in Hme', Hnb'.
  destruct (used_entry cs hs used lay0 _ me Hhs Hused Hme') as (a & ca & Hela & Ha & Hoa).
  destruct (used_entry cs hs used lay0 _ nb Hhs Hused Hnb') as (b & cb & Helb & Hb & Hob).
  assert (a ≠ b) as Hab by (intros ->; congruence).
  pose proof (lookup_lt_Some _ _ _ Ha) as Hla.
  pose proof (lookup_lt_Some _ _ _ Hb) as Hlb.
  set (cs' := writeOrder b (dragIndex st) (writeOrder a index cs)).
  assert (order <$> cs' ≡ₚ orderRange n) as Hperm'.
  { unfold cs'. rewrite !writeOrder_orders, <- Hperm.
    apply swap_Permutation; [done | |]; rewrite list_lookup_fmap.
    - rewrite Ha. simpl. by rewrite Hoa.
    - rewrite Hb. simpl. by rewrite Hob. }
  assert (cs' !! a = Some {| order := Some index; dragIndexAttr := dragIndexAttr ca;
                              isHandle := isHandle ca |}) as Ha'.
  { unfold cs', writeOrder. rewrite list_lookup_alter_ne by done.
    rewrite list_lookup_alter_eq, Ha. done. }
  assert (cs' !! b = Some {| order := Some (dragIndex st); dragIndexAttr := dragIndexAttr cb;
                              isHandle := isHandle cb |}) as Hb'.
  { unfold cs', writeOrder. rewrite list_lookup_alter_eq, list_lookup_alter_ne by done.
    rewrite Hb. done. }
  unfold sortBody. fold index.
  rewrite (bool_decide_eq_true_2 (is_Some _)) by by rewrite Hme.
  destruct (Z.leb_spec 0 index) as [_|]; [|lia]. simpl.
  unfold swapWith. rewrite Hme. simpl. rewrite Hela. simpl.
  rewrite Hnb. simpl. rewrite Helb. simpl.
  eexists. split; [reflexivity|].
  assert (writeOrder b (dragIndex st) (writeOrder a index (children st)) = cs' ++ hs) as Hch'.
  { rewrite Hch, !writeOrder_app_l by (rewrite ?length_writeOrder; lia). done. }
  split.
  - exists me, nb, a, b. unfold updateChildrenInfo. simpl. rewrite Hch'.
    split_and!; try done.
    + by rewrite lookup_app_l_Some with (x := {| order := Some index;
        dragIndexAttr := dragIndexAttr ca; isHandle := isHandle ca |}).
    + by rewrite lookup_app_l_Some with (x := {| order := Some (dragIndex st);
        dragIndexAttr := dragIndexAttr cb; isHandle := isHandle cb |}).
    + destruct (tracked_lookup cs' hs lay a _ index (tracked_orders_NoDup n cs' Hperm')
                  Hhs Ha' eq_refl) as (item & -> & Hel). simpl. by rewrite Hel.
    + destruct (tracked_lookup cs' hs lay b _ (dragIndex st) (tracked_orders_NoDup n cs' Hperm')
                  Hhs Hb' eq_refl) as (item & -> & Hel). simpl. by rewrite Hel.
  - exists cs', lay, (cs' ++ hs). unfold updateChildrenInfo. simpl. rewrite Hch'.
    split_and!; try done.
    + unfold cs'. by rewrite !length_writeOrder.
    + by right.
Qed.

(** The check never throws in a tracked state, and keeps it tracked. *)
Lemma sortBody_tracked lay point st n hs :
  tracked n hs st →
  ∃ st', sortBody lay point st = Some st' ∧ tracked n hs st'.
Proof.
  intros Htr.
  destruct (decide (is_Some (childrenInfos st !! pretty (dragIndex st)))) as [Hme|Hme].
  - destruct (sortTarget_cases st point) as [[Htg Hnb] | [[Htg Hnb] | Htg]].
    + destruct (sortBody_exchange lay point st n hs Htr) as (st' & Hrun & _ & Htr');
        rewrite ?Htg; [lia | done | done | by eauto].
    + destruct (sortBody_exchange lay point st n hs Htr) as (st' & Hrun & _ & Htr');
        rewrite ?Htg; [lia | done | done | by eauto].
    + exists st. split; [|done]. unfold sortBody. by rewrite Htg.
  - exists st. split; [|done]. apply sortBody_no_entry.
    by apply eq_None_not_Some.
Qed.

(** ** Invariants of the reachable states *)

Lemma orders_numbered (kids : list Child) :
  order <$> imap numberChild kids = orderRange (length kids).
Proof.
  rewrite fmap_imap. unfold orderRange.
  by rewrite <- (imap_seq_0 kids (λ i, Some (Z.of_nat i))).
Qed.

Lemma initDragPoolInfo_keeps lay st :
  children (initDragPoolInfo lay st) = children st
  ∧ childrenInfos (initDragPoolInfo lay st) = childrenInfos st
  ∧ isChildren (options (initDragPoolInfo lay st)) = isChildren (options st)
  ∧ isSort (options (initDragPoolInfo lay st)) = isSort (options st)
  ∧ isAllowOut (options (initDragPoolInfo lay st)) = isAllowOut (options st)
  ∧ resizeId (options (initDragPoolInfo lay st)) = resizeId (options st)
  ∧ direction (options (initDragPoolInfo lay st)) = direction (options st).
Proof.
  unfold initDragPoolInfo. destruct (isAllowIn (options st)); simpl; [|done].
  destruct (dragId (options st)) as [[|c s]|]; done.
Qed.

Lemma construct_children lay opts kids pools :
  children (construct lay opts kids pools)
  = (if isChildren opts then imap numberChild kids else kids) ++ handles opts.
Proof.
  unfold construct, initDragHandleElement, initChildren, handles.
  destruct (initDragPoolInfo_keeps lay (fresh opts kids pools))
    as (Hch & Htab & HisC & HisS & _ & _ & Hdir).
  simpl in *. rewrite HisC, HisS, Hch.
  destruct (isChildren opts), kids as [|kid kids], (isSort opts); simpl;
    rewrite ?Hdir, ?Hch; destruct (direction opts); simpl; by rewrite ?app_nil_r.
Qed.

Lemma construct_childrenInfos lay opts kids pools :
  childrenInfos (construct lay opts kids pools)
  = if isChildren opts && isSort opts
    then collectChildren lay (imap numberChild kids) 0 (imap numberChild kids) ∅
    else ∅.
Proof.
  unfold construct, initDragHandleElement, initChildren.
  destruct (initDragPoolInfo_keeps lay (fresh opts kids pools))
    as (Hch & Htab & HisC & HisS & _ & _ & Hdir).
  simpl in *. rewrite HisC, HisS, Hch.
  destruct (isChildren opts), kids as [|kid kids], (isSort opts); simpl;
    rewrite ?Hdir; destruct (direction opts); simpl; by rewrite ?Htab.
Qed.

Lemma construct_options lay opts kids pools :
  isSort (options (construct lay opts kids pools)) = isSort opts
  ∧ isAllowOut (options (construct lay opts kids pools)) = isAllowOut opts
  ∧ resizeId (options (construct lay opts kids pools)) = resizeId opts
  ∧ direction (options (construct lay opts kids pools)) = direction opts.
Proof.
  unfold construct, initDragHandleElement, initChildren.
  destruct (initDragPoolInfo_keeps lay (fresh opts kids pools))
    as (Hch & Htab & HisC & HisS & Hout & Hrid & Hdir).
  simpl in *. rewrite HisC, HisS, Hch.
  destruct (isChildren opts), kids as [|kid kids], (isSort opts); simpl;
    rewrite ?Hdir; destruct (direction opts); simpl; by rewrite ?Hout, ?Hrid, ?HisS, ?Hdir.
Qed.

Lemma handles_unordered opts : Forall (λ c, order c = None) (handles opts).
Proof.
  unfold handles. destruct (direction opts); repeat constructor.
Qed.

(** A sorting container in children-mode is tracked from construction. *)
Lemma construct_tracked lay opts kids pools :
  isChildren opts = true → isSort opts = true →
  tracked (length kids) (handles opts) (construct lay opts kids pools).
Proof.
  intros HisC HisS.
  exists (imap numberChild kids), lay, (imap numberChild kids).
  rewrite construct_children, construct_childrenInfos, HisC, HisS. simpl.
  split_and!; [done | apply length_imap | by rewrite orders_numbered
              | apply handles_unordered | by left | done].
Qed.

Lemma construct_sortInvariant lay opts kids pools :
  sortInvariant (length kids) (handles opts) (construct lay opts kids pools).
Proof.
  destruct (isChildren opts && isSort opts) eqn:Hboth.
  - apply andb_prop in Hboth as [HisC HisS]. right. by apply construct_tracked.
  - left. by rewrite construct_childrenInfos, Hboth.
Qed.

Lemma tracked_same n hs st st1 : sameSortData st st1 → tracked n hs st → tracked n hs st1.
Proof.
  intros (_ & Hch & Htab & _) (cs & lay & used & H).
  exists cs, lay, used. by rewrite Hch, Htab.
Qed.

Lemma dispatch_tracked n hs i st st' :
  tracked n hs st → dispatch i st = Some st' → tracked n hs st'.
Proof.
  intros Htr [[Hsame _] | (st1 & lay & point & Hsame & _ & Hrun)]%dispatch_sortData.
  - by eapply tracked_same.
  - destruct (sortBody_tracked lay point st1 n hs) as (st'' & Hrun' & Htr'').
    + by eapply tracked_same.
    + congruence.
Qed.

Lemma dispatch_untracked i st st' :
  childrenInfos st = ∅ → dispatch i st = Some st' →
  childrenInfos st' = ∅ ∧ children st' = children st.
Proof.
  intros Hempty [[Hsame _] | (st1 & lay & point & Hsame & _ & Hrun)]%dispatch_sortData.
  - destruct Hsame as (_ & -> & -> & _). done.
  - destruct Hsame as (_ & Hch & Htab & _).
    rewrite sortBody_empty in Hrun by congruence.
    injection Hrun as <-. split; congruence.
Qed.

Lemma dispatch_options i st st' :
  dispatch i st = Some st' →
  options st' = options st ∧ draggablePools st' = draggablePools st.
Proof.
  intros [[Hsame _] | (st1 & lay & point & Hsame & _ & Hrun)]%dispatch_sortData.
  - by destruct Hsame as (-> & _ & _ & ->).
  - destruct Hsame as (Hopt & _ & _ & Hpools).
    apply sortBody_onlySortChanged in Hrun. rewrite Hrun. simpl. done.
Qed.

Lemma reachableFrom_tracked n hs st0 st :
  tracked n hs st0 → reachableFrom st0 st → tracked n hs st.
Proof.
  intros H0 Hreach. induction Hreach as [|st i st' _ IH _ Hstep]; [done|].
  by eapply dispatch_tracked.
Qed.

Lemma reachableFrom_untracked st0 st :
  childrenInfos st0 = ∅ → reachableFrom st0 st →
  childrenInfos st = ∅ ∧ children st = children st0.
Proof.
  intros H0 Hreach. induction Hreach as [|st i st' _ [IHt IHc] _ Hstep]; [done|].
  destruct (dispatch_untracked i st st' IHt Hstep) as [Ht Hc]. split; congruence.
Qed.

Lemma reachableFrom_options st0 st :
  reachableFrom st0 st →
  options st = options st0 ∧ draggablePools st = draggablePools st0.
Proof.
  intros Hreach. induction Hreach as [|st i st' _ [IHo IHp] _ Hstep]; [done|].
  destruct (dispatch_options i st st' Hstep) as [Ho Hp]. split; congruence.
Qed.

Lemma reachable_sortInvariant st :
  reachable st → ∃ n hs, sortInvariant n hs st.
Proof.
  intros (lay & opts & kids & cs & Hreach).
  exists (length kids), (handles opts).
  destruct (construct_sortInvariant lay opts kids (registry cs)) as [Hempty | Htr].
  - left. by eapply reachableFrom_untracked.
  - right. by eapply reachableFrom_tracked.
Qed.

(** ** The reorder decision *)

Lemma sortTarget_up st point up :
  childrenInfos st !! pretty (dragIndex st - 1) = Some up →
  PositionItem.top point - 10 ≤ PositionItem.top up →
  sortTarget st point = dragIndex st - 1.
Proof.
  intros Hup Hle. unfold sortTarget. rewrite Hup.
  by destruct (Z.leb_spec (PositionItem.top point - 10) (PositionItem.top up)); [|lia].
Qed.

Lemma sortTarget_skip_up st point :
  (∀ up, childrenInfos st !! pretty (dragIndex st - 1) = Some up →
         PositionItem.top up < PositionItem.top point - 10) →
  sortTarget st point =
    match childrenInfos st !! pretty (dragIndex st + 1) with
    | Some dn => if PositionItem.top dn <=? PositionItem.top point + 10
                 then dragIndex st + 1 else -1
    | None => -1
    end.
Proof.
  intros Hno. unfold sortTarget.
  destruct (childrenInfos st !! pretty (dragIndex st - 1)) as [up|]; [|done].
  specialize (Hno up eq_refl).
  by destruct (Z.leb_spec (PositionItem.top point - 10) (PositionItem.top up)); [lia|].
Qed.

Lemma sortBody_no_target lay point st :
  sortTarget st point = -1 → sortBody lay point st = Some st.
Proof. intros Htg. unfold sortBody. by rewrite Htg. Qed.

Lemma collect_last_entry lay all rest : ∀ i acc j c,
  rest !! j = Some c →
  (∀ j' c', (j < j')%nat → rest !! j' = Some c' →
            orderKey (order c') ≠ orderKey (order c)) →
  collectChildren lay all i rest acc !! orderKey (order c)
  = Some (childEntry lay all (i + j)).
Proof.
  induction rest as [|c0 rest IH]; intros i acc j c Hc Hlater; [done|].
  destruct j as [|j]; simpl in *.
  - injection Hc as ->. rewrite collect_lookup_other.
    + rewrite lookup_insert_eq, Nat.add_0_r. done.
    + intros c' [j' Hj']%list_elem_of_lookup_1. apply (Hlater (S j') c'); [lia | done].
  - rewrite (IH (S i) _ j c Hc).
    + by rewrite Nat.add_succ_r.
    + intros j' c' Hlt Hc'. apply (Hlater (S j') c'); [lia | done].
Qed.

Lemma exchanged_index st target st' : exchanged st target st' → dragIndex st' = target.
Proof. by intros (me & nb & a & b & _ & _ & _ & _ & _ & _ & _ & _ & _ & Hidx & _). Qed.

(** An execution that changes the state ends with [updateChildrenInfo()]. *)
Lemma sortBody_table lay point st st' :
  sortBody lay point st = Some st' →
  st' = st ∨ childrenInfos st' = collectChildren lay (children st') 0 (children st') ∅.
Proof.
  unfold sortBody. intros H.
  destruct (_ && _); [|left; congruence].
  destruct (swapWith _ st) as [s|]; [|done]. simpl in H. injection H as <-.
  by right.
Qed.

(** In a tracked state a table built from the children has, under each
    order value, the box of the child that carries it. *)
Lemma tracked_rebuilt n hs lay st :
  tracked n hs st →
  childrenInfos st = collectChildren lay (children st) 0 (children st) ∅ →
  rebuilt lay st.
Proof.
  intros (cs & lay0 & used & Hch & Hlen & Hperm & Hhs & _ & _) Htab.
  split; [done|]. intros j c k Hc Hk.
  pose proof (tracked_orders_NoDup n cs Hperm) as Hnd.
  rewrite Htab. replace (pretty k) with (orderKey (order c)) by by rewrite Hk.
  rewrite (collect_last_entry lay _ _ 0 ∅ j c Hc); [done|].
  intros j' c' Hlt Hc' Heq%orderKey_inj.
  rewrite Hch in Hc, Hc'.
  apply lookup_app_Some in Hc as [Hc | [Hge Hc]].
  - apply lookup_app_Some in Hc' as [Hc' | [Hge' Hc']].
    + assert (j = j'); [|lia].
      apply (NoDup_lookup (order <$> cs) j j' (order c)); [done| |].
      * by rewrite list_lookup_fmap, Hc.
      * rewrite list_lookup_fmap, Hc'. simpl. by rewrite Heq.
    + apply list_elem_of_lookup_2 in Hc'.
      rewrite (proj1 (Forall_forall _ _) Hhs c' Hc') in Heq. congruence.
  - apply list_elem_of_lookup_2 in Hc.
    rewrite (proj1 (Forall_forall _ _) Hhs c Hc) in Hk. congruence.
Qed.

Lemma reachable_exchange lay point st :
  reachable st →
  sortTarget st point ≠ dragIndex st →
  is_Some (childrenInfos st !! pretty (dragIndex st)) →
  is_Some (childrenInfos st !! pretty (sortTarget st point)) →
  ∃ st', sortBody lay point st = Some st'
         ∧ exchanged st (sortTarget st point) st'
         ∧ rebuilt lay st'.
Proof.
  intros (n & hs & [Hempty | Htr])%reachable_sortInvariant Hne Hme Hnb.
  - rewrite Hempty, lookup_empty in Hme. by destruct Hme.
  - destruct (sortBody_exchange lay point st n hs Htr Hne Hme Hnb) as (st' & Hrun & Hex & Htr').
    exists st'. split_and!; [done | done |].
    apply (tracked_rebuilt n hs); [done|].
    destruct (sortBody_table _ _ _ _ Hrun) as [-> | Htab]; [|done].
    by apply exchanged_index in Hex.
Qed.

(** C4, as amended: in every reachable state, with dragged index [idx] and
    current drag top [t], an executed reorder check moves up when the entry
    at [idx-1] exists with a top of at least [t-10], else moves down when the
    entry at [idx+1] exists with a top of at most [t+10], else changes
    nothing.  A move exchanges the order values of the two elements and
    their entries in the table, makes the target the drag index and rebuilds
    the table from the layout, each entry holding the box its child has then,
    provided the table has an entry at [idx] itself; without one nothing
    changes. *)
Theorem checkChildrenSort_decision lay point st :
  reachable st →
  (∀ up, childrenInfos st !! pretty (dragIndex st - 1) = Some up →
         PositionItem.top point - 10 ≤ PositionItem.top up →
         is_Some (childrenInfos st !! pretty (dragIndex st)) →
         ∃ st', sortBody lay point st = Some st'
                ∧ exchanged st (dragIndex st - 1) st'
                ∧ rebuilt lay st')
  ∧ (∀ dn, (∀ up, childrenInfos st !! pretty (dragIndex st - 1) = Some up →
                  PositionItem.top up < PositionItem.top point - 10) →
           childrenInfos st !! pretty (dragIndex st + 1) = Some dn →
           PositionItem.top dn ≤ PositionItem.top point + 10 →
           is_Some (childrenInfos st !! pretty (dragIndex st)) →
           ∃ st', sortBody lay point st = Some st'
                  ∧ exchanged st (dragIndex st + 1) st'
                  ∧ rebuilt lay st')
  ∧ ((∀ up, childrenInfos st !! pretty (dragIndex st - 1) = Some up →
            PositionItem.top up < PositionItem.top point - 10) →
     (∀ dn, childrenInfos st !! pretty (dragIndex st + 1) = Some dn →
            PositionItem.top point + 10 < PositionItem.top dn) →
     sortBody lay point st = Some st)
  ∧ (childrenInfos st !! pretty (dragIndex st) = None → sortBody lay point st = Some st).
Proof.
  intros Hreach. split_and!.
  - intros up Hup Hle Hme.
    pose proof (sortTarget_up st point up Hup Hle) as Htg.
    rewrite <- Htg. apply reachable_exchange; rewrite ?Htg; [done | lia | done | by eauto].
  - intros dn Hnoup Hdn Hle Hme.
    pose proof (sortTarget_skip_up st point Hnoup) as Htg. rewrite Hdn in Htg.
    destruct (Z.leb_spec (PositionItem.top dn) (PositionItem.top point + 10)); [|lia].
    rewrite <- Htg. apply reachable_exchange; rewrite ?Htg; [done | lia | done | by eauto].
  - intros Hnoup Hnodn. apply sortBody_no_target.
    rewrite (sortTarget_skip_up st point Hnoup).
    destruct (childrenInfos st !! pretty (dragIndex st + 1)) as [dn|]; [|done].
    specialize (Hnodn dn eq_refl).
    by destruct (Z.leb_spec (PositionItem.top dn) (PositionItem.top point + 10)); [lia|].
  - apply sortBody_no_entry.
Qed.

Lemma sortableList_grabbed d i :
  i = grabFirst ∨ i = grabContainer →
  reachable (after [i] (sortableList d)).
Proof.
  intros Hi.
  exists columnLayout, (sortableOptions d), [plainChild; plainChild; plainChild],
    [dropTarget "trayB"].
  apply reachable_dispatch with (st := sortableList d) (i := i).
  - apply reachable_start.
  - destruct Hi as [-> | ->]; destruct d; vm_compute; split; (done || lia).
  - destruct Hi as [-> | ->]; destruct d; by vm_compute.
Qed.

Lemma checkChildrenSort_decision_witness :
  ∃ st', sortBody columnLayout (pagePoint 150 45) (after [grabFirst] (sortableList DirNone))
         = Some st'
         ∧ exchanged (after [grabFirst] (sortableList DirNone)) 1 st'
         ∧ rebuilt columnLayout st'.
Proof.
  assert (reachable (after [grabFirst] (sortableList DirNone))) as Hreach
    by (apply sortableList_grabbed; by left).
  destruct (checkChildrenSort_decision columnLayout (pagePoint 150 45) _ Hreach)
    as (_ & Hdown & _ & _).
  apply (Hdown (PositionItem.mk 50 0 100 50 (Some 1%nat))).
  - intros up Hup. vm_compute in Hup. discriminate.
  - by vm_compute.
  - by vm_compute.
  - eexists. by vm_compute.
Defined.

(** C4 as stated fails when the table has no entry at the drag index:
    after the container itself is grabbed the index is [-1], the entry at
    [idx+1 = 0] exists and its top, 0, is at most [t+10], so the rule selects
    it, yet nothing is exchanged and the drag index stays [-1]. *)
Lemma checkChildrenSort_unselected :
  reachable (after [grabContainer] (sortableList DirNone))
  ∧ dragIndex (after [grabContainer] (sortableList DirNone)) = -1
  ∧ childrenInfos (after [grabContainer] (sortableList DirNone)) !! pretty (-1 - 1) = None
  ∧ (∃ dn, childrenInfos (after [grabContainer] (sortableList DirNone)) !! pretty (-1 + 1)
           = Some dn
           ∧ PositionItem.top dn ≤ PositionItem.top (pagePoint 0 0) + 10)
  ∧ sortBody columnLayout (pagePoint 0 0) (after [grabContainer] (sortableList DirNone))
    = Some (after [grabContainer] (sortableList DirNone)).
Proof.
  split_and!.
  - apply sortableList_grabbed. by right.
  - by vm_compute.
  - by vm_compute.
  - exists (PositionItem.mk 0 0 100 50 (Some 0%nat)). split; by vm_compute.
  - by vm_compute.
Qed.

(** ** The keys of the sibling order table *)

Lemma indexKeys_elem n (k : Z) : pretty k ∈ indexKeys n ↔ 0 ≤ k < Z.of_nat n.
Proof.
  unfold indexKeys. rewrite elem_of_list_to_set, list_elem_of_fmap. split.
  - intros (o & Hkey & Ho). symmetry in Hkey. apply orderKey_pretty in Hkey as ->.
    apply orderRange_elem in Ho as (k' & [= <-] & Hk). done.
  - intros Hk. exists (Some k). split; [done|]. apply orderRange_elem. by exists k.
Qed.

Lemma indexKeys_no_empty n : "" ∉ indexKeys n.
Proof.
  unfold indexKeys. rewrite elem_of_list_to_set, list_elem_of_fmap.
  intros (o & Hkey & (k & -> & _)%orderRange_elem). simpl in Hkey.
  symmetry in Hkey. by apply pretty_Z_nonempty in Hkey.
Qed.

Lemma handles_keys opts :
  list_to_set (orderKey <$> (order <$> handles opts)) =@{gset string}
    match direction opts with DirNone => ∅ | _ => {[ "" ]} end.
Proof.
  unfold handles. destruct (direction opts); simpl; by rewrite ?(right_id_L ∅ (∪)).
Qed.

Lemma tracked_dom n opts st :
  tracked n (handles opts) st →
  dom (childrenInfos st) = indexKeys n
  ∨ (direction opts ≠ DirNone ∧ dom (childrenInfos st) = indexKeys n ∪ {[ "" ]}).
Proof.
  intros (cs & lay & used & Hch & Hlen & Hperm & Hhs & Hused & Htab).
  rewrite Htab, collect_dom, dom_empty_L, (left_id_L ∅ (∪)).
  assert (list_to_set (orderKey <$> (order <$> cs)) = indexKeys n) as Hcs.
  { unfold indexKeys. by rewrite Hperm. }
  destruct Hused as [-> | ->].
  - by left.
  - rewrite !fmap_app, list_to_set_app_L, Hcs, handles_keys.
    destruct (direction opts); [left; by rewrite (right_id_L ∅ (∪)) | right ..]; done.
Qed.

(** C5, as amended: in a container constructed with children-mode and
    sorting, after any inputs, the numbered children carry the order values
    [0], ..., [childCount-1] once each, and the numeric keys of the table are
    exactly those of [0, childCount).  Without a resize handle these are all
    the keys; with one, the table may also hold the handle under the empty
    key. *)
Theorem sibling_table_keys lay opts kids cs st :
  isChildren opts = true → isSort opts = true →
  reachableFrom (construct lay opts kids (registry cs)) st →
  (∃ ordered, children st = ordered ++ handles opts
              ∧ order <$> ordered ≡ₚ orderRange (length kids))
  ∧ (∀ k : Z, pretty k ∈ dom (childrenInfos st) ↔ 0 ≤ k < Z.of_nat (length kids))
  ∧ (dom (childrenInfos st) = indexKeys (length kids)
     ∨ dom (childrenInfos st) = indexKeys (length kids) ∪ {[ "" ]})
  ∧ (direction opts = DirNone → dom (childrenInfos st) = indexKeys (length kids)).
Proof.
  intros HisC HisS Hreach.
  pose proof (reachableFrom_tracked _ _ _ _
                (construct_tracked lay opts kids (registry cs) HisC HisS) Hreach) as Htr.
  pose proof (tracked_dom _ _ _ Htr) as Hdom.
  split_and!.
  - destruct Htr as (ordered & _ & _ & Hch & _ & Hperm & _). by exists ordered.
  - intros k. destruct Hdom as [-> | [_ ->]].
    + apply indexKeys_elem.
    + rewrite elem_of_union, indexKeys_elem, elem_of_singleton.
      split; [intros [?|Hk]; [done | by apply pretty_Z_nonempty in Hk] | by left].
  - destruct Hdom as [? | [_ ?]]; [by left | by right].
  - intros Hdir. by destruct Hdom as [? | [? _]].
Qed.

Lemma sortableList_runs d inputs :
  inputs = [grabFirst; moveDown] →
  reachableFrom (sortableList d) (after inputs (sortableList d)).
Proof.
  intros ->.
  apply reachable_dispatch with (st := after [grabFirst] (sortableList d)) (i := moveDown).
  - apply reachable_dispatch with (st := sortableList d) (i := grabFirst).
    + apply reachable_start.
    + destruct d; vm_compute; split; (done || lia).
    + destruct d; by vm_compute.
  - destruct d; by vm_compute.
  - destruct d; by vm_compute.
Qed.

Lemma sibling_table_keys_witness :
  (∃ ordered, children (after [grabFirst; moveDown] (sortableList DirNone))
              = ordered ++ handles (sortableOptions DirNone)
              ∧ order <$> ordered ≡ₚ orderRange 3)
  ∧ dom (childrenInfos (after [grabFirst; moveDown] (sortableList DirNone))) = indexKeys 3.
Proof.
  destruct (sibling_table_keys columnLayout (sortableOptions DirNone)
              [plainChild; plainChild; plainChild] [dropTarget "trayB"]
              (after [grabFirst; moveDown] (sortableList DirNone)))
    as (Hch & _ & _ & Hdom).
  - reflexivity.
  - reflexivity.
  - by apply sortableList_runs.
  - split; [exact Hch | by apply Hdom].
Defined.

(** C5 as stated fails for a sorting container with a resize handle: the
    handle is a child without an order value, and the table rebuilt after
    the first swap holds it under the empty key.  It also fails for a
    container that does not sort, whose table is empty whatever the number
    of its children. *)
Lemma sibling_table_handle_key :
  reachableFrom (sortableList DirRight) (after [grabFirst; moveDown] (sortableList DirRight))
  ∧ order <$> children (after [grabFirst; moveDown] (sortableList DirRight))
    = [Some 1; Some 0; Some 2; None]
  ∧ "" ∈ dom (childrenInfos (after [grabFirst; moveDown] (sortableList DirRight)))
  ∧ dom (childrenInfos (after [grabFirst; moveDown] (sortableList DirRight))) ≠ indexKeys 3
  ∧ length (children plainList) = 2%nat
  ∧ dom (childrenInfos plainList) = ∅
  ∧ dom (childrenInfos plainList) ≠ indexKeys 2.
Proof.
  assert ("" ∈ dom (childrenInfos (after [grabFirst; moveDown] (sortableList DirRight)))) as Hin.
  { apply elem_of_dom. eexists. by vm_compute. }
  assert (childrenInfos plainList = ∅) as Hplain by by vm_compute.
  split_and!.
  - by apply sortableList_runs.
  - by vm_compute.
  - done.
  - intros Heq. rewrite Heq in Hin. by apply indexKeys_no_empty in Hin.
  - by vm_compute.
  - by rewrite Hplain, dom_empty_L.
  - rewrite Hplain, dom_empty_L. intros Heq.
    assert (pretty 0 ∈ indexKeys 2) as H0 by (apply indexKeys_elem; lia).
    rewrite <- Heq in H0. by apply not_elem_of_empty in H0.
Qed.

(** ** The sentinel index *)

(** C9: a reorder check executed while the drag index is the sentinel
    [-1] returns normally and leaves the whole state as it was: no order
    value, no table entry and no index is written.  So a move or a time-out
    arriving in such a state leaves the children, the table and the index as
    they were. *)
Theorem checkChildrenSort_sentinel lay point st :
  reachable st → dragIndex st = -1 →
  sortBody lay point st = Some st
  ∧ (∀ i st', runsCheck i → dispatch i st = Some st' →
       children st' = children st
       ∧ childrenInfos st' = childrenInfos st
       ∧ dragIndex st' = -1).
Proof.
  intros (n & hs & Hinv)%reachable_sortInvariant Hidx.
  assert (∀ s, sameSortData st s → dragIndex s = -1 →
               childrenInfos s !! pretty (dragIndex s) = None) as Hnone.
  { intros s (_ & _ & Htab & _) Hs. rewrite Hs, Htab.
    destruct Hinv as [-> | Htr]; [done|].
    apply eq_None_not_Some. intros Hsome.
    apply (tracked_key_range n hs st _ Htr) in Hsome. lia. }
  split.
  - apply sortBody_no_entry, Hnone; [by unfold sameSortData | done].
  - intros i st' Hi [[Hsame Hkeep] | (st1 & lay' & p & Hsame & Hidx1 & Hrun)]%dispatch_sortData.
    + destruct Hsame as (_ & -> & -> & _). rewrite Hkeep by done. done.
    + rewrite sortBody_no_entry in Hrun by (apply Hnone; [done | congruence]).
      injection Hrun as <-. destruct Hsame as (_ & -> & -> & _). split_and!; congruence.
Qed.

Lemma checkChildrenSort_sentinel_witness :
  sortBody columnLayout (pagePoint 0 0) (after [grabContainer] (sortableList DirNone))
  = Some (after [grabContainer] (sortableList DirNone)).
Proof.
  apply (checkChildrenSort_sentinel columnLayout (pagePoint 0 0)
           (after [grabContainer] (sortableList DirNone))).
  - apply sortableList_grabbed. by right.
  - by vm_compute.
Defined.

(** ** Containers that do not sort *)

(** C10: in a container constructed with [isSort = false] the table is
    empty in every state, no input changes a child, and an execution of the
    reorder check changes nothing. *)
Theorem unsorted_never_reorders lay opts kids cs st :
  isSort opts = false →
  reachableFrom (construct lay opts kids (registry cs)) st →
  childrenInfos st = ∅
  ∧ children st = children (construct lay opts kids (registry cs))
  ∧ (∀ lay' point, sortBody lay' point st = Some st)
  ∧ (∀ i st', dispatch i st = Some st' →
       children st' = children st ∧ childrenInfos st' = ∅).
Proof.
  intros HisS Hreach.
  assert (childrenInfos (construct lay opts kids (registry cs)) = ∅) as H0.
  { rewrite construct_childrenInfos, HisS. by rewrite andb_false_r. }
  destruct (reachableFrom_untracked _ _ H0 Hreach) as [Htab Hch].
  split_and!; [done | done | |].
  - intros lay' point. by apply sortBody_empty.
  - intros i st' Hstep. destruct (dispatch_untracked i st st' Htab Hstep). done.
Qed.

Lemma unsorted_never_reorders_witness :
  childrenInfos (after [grabFirst; moveDown] plainList) = ∅
  ∧ children (after [grabFirst; moveDown] plainList) = children plainList
  ∧ sortBody columnLayout (pagePoint 0 45) (after [grabFirst; moveDown] plainList)
    = Some (after [grabFirst; moveDown] plainList).
Proof.
  destruct (unsorted_never_reorders columnLayout clampingOptions [plainChild; plainChild] []
              (after [grabFirst; moveDown] plainList))
    as (Htab & Hch & Hcheck & _).
  - reflexivity.
  - apply reachable_dispatch with (st := after [grabFirst] plainList) (i := moveDown).
    + apply reachable_dispatch with (st := plainList) (i := grabFirst).
      * apply reachable_start.
      * vm_compute. split; (done || lia).
      * by vm_compute.
    + by vm_compute.
    + by vm_compute.
  - split_and!; [exact Htab | exact Hch | apply Hcheck].
Defined.

(** ** Gestures *)

Lemma construct_idle lay opts kids pools :
  maskDisplay (construct lay opts kids pools) = false
  ∧ isResize (construct lay opts kids pools) = false.
Proof.
  unfold construct, initDragHandleElement, initChildren, initDragPoolInfo,
    updateChildrenInfo, updateElementInfo.
  split; simpl; repeat case_match; reflexivity.
Qed.

Lemma dispatch_gesture i st st' :
  gestureInvariant st → deliverable i st → dispatch i st = Some st' → gestureInvariant st'.
Proof.
  unfold gestureInvariant. intros Hinv Hdel Hstep.
  destruct i as [|now lay e|now lay].
  - simpl in Hstep. by injection Hstep as <-.
  - simpl in Hdel. unfold_handlers. destruct (etype e) eqn:Hty.
    + destruct Hdel as [Hmask _]. rewrite Hmask in Hinv.
      destruct (onHandle e st); simpl in Hstep; rewrite ?Hinv in Hstep.
      * injection Hstep as <-. simpl. by left.
      * destruct (isSort (options st)); simpl in Hstep; injection Hstep as <-; simpl; right.
        all: eexists; split; [done|]; apply elem_of_app; right; left.
    + rewrite Hdel in Hinv. destruct (isResize st) eqn:Hres.
      * injection Hstep as <-.
        destruct (_ <? 0); [|destruct (direction (options st))]; simpl;
          rewrite Hdel, ?Hres; by left.
      * destruct Hinv as [? | (id & Hcur & Hbody)]; [done|].
        rewrite Hcur in Hstep. simpl in Hstep.
        destruct (debounced _ _ _) as [g [args|]].
        -- apply sortBody_onlySortChanged in Hstep. rewrite Hstep. simpl.
           rewrite Hdel. right. by exists id.
        -- injection Hstep as <-. simpl. rewrite Hdel. right. by exists id.
    + rewrite Hdel in Hinv. destruct (isResize st) eqn:Hres.
      * injection Hstep as <-.
        destruct (_ <? 0); [|destruct (direction (options st))]; simpl; done.
      * split_cases; simpl; done.
  - unfold_handlers. destruct (timerExpired _ _) as [g [args|]].
    + apply sortBody_onlySortChanged in Hstep. rewrite Hstep. simpl. done.
    + by injection Hstep as <-.
Qed.

Lemma reachable_gesture st : reachable st → gestureInvariant st.
Proof.
  intros (lay & opts & kids & cs & Hreach).
  induction Hreach as [|st i st' _ IH Hdel Hstep].
  - unfold gestureInvariant.
    by destruct (construct_idle lay opts kids (registry cs)) as [-> ->].
  - by eapply dispatch_gesture.
Qed.

(** *** The keys of the registry are identifiers *)

Lemma js_set_keys key v (o : JsObject) x :
  x ∈ js_keys (js_set key v o) ↔ (key ≠ "__proto__" ∧ x = key) ∨ x ∈ js_keys o.
Proof.
  unfold js_keys, js_set. case_bool_decide as Hp; simpl.
  - split; [by right | by intros [[? _] | ?]].
  - rewrite own_set_keys. split; [intros [-> | ?]; [by left | by right] | ].
    intros [[_ ->] | ?]; [by left | by right].
Qed.

Lemma registeredId_nonempty c id : registeredId c = Some id → id ≠ "".
Proof.
  unfold registeredId. destruct (isAllowIn c.1); [|done].
  destruct (dragId c.1) as [[|a s]|]; intros [= <-]; done.
Qed.

Lemma registry_keys_nonempty cs : "" ∉ js_keys (registry cs).
Proof.
  induction cs as [|c cs IH] using rev_ind.
  - by intros ?%elem_of_nil.
  - rewrite registry_snoc, register_spec.
    destruct (registeredId c) as [id|] eqn:Hid; [|done].
    rewrite js_set_keys. intros [[_ Heq] | Hin]; [|done].
    by apply (registeredId_nonempty c id).
Qed.

Lemma construct_pools lay opts kids cs :
  draggablePools (construct lay opts kids (registry cs))
  = registry (cs ++ [(opts, nodeBox lay NodeEl)]).
Proof.
  rewrite registry_snoc.
  unfold construct, initDragHandleElement, initChildren, register, initDragPoolInfo,
    updateChildrenInfo, updateElementInfo.
  simpl. repeat case_match; reflexivity.
Qed.

Lemma reachable_pools_nonempty st : reachable st → "" ∉ js_keys (draggablePools st).
Proof.
  intros (lay & opts & kids & cs & Hreach).
  destruct (reachableFrom_options _ _ Hreach) as [_ ->].
  rewrite construct_pools. apply registry_keys_nonempty.
Qed.

(** ** Release of a drag *)


(** An execution of the check in a tracked state changes nothing or
    exchanges the dragged element with the selected neighbour. *)
Lemma sortBody_outcome lay point st st' n hs :
  tracked n hs st → sortBody lay point st = Some st' →
  st' = st ∨ exchanged st (dragIndex st') st'.
Proof.
  intros Htr Hrun.
  destruct (decide (is_Some (childrenInfos st !! pretty (dragIndex st)))) as [Hme|Hme].
  - assert (sortTarget st point = -1
            ∨ (sortTarget st point ≠ dragIndex st
               ∧ is_Some (childrenInfos st !! pretty (sortTarget st point))))
      as [Htg | [Hne Hnb]].
    { destruct (sortTarget_cases st point) as [[Htg Hnb] | [[Htg Hnb] | Htg]];
        [right | right | by left]; rewrite Htg; (split; [lia | done]). }
    + left. rewrite sortBody_no_target in Hrun by done. congruence.
    + destruct (sortBody_exchange lay point st n hs Htr Hne Hme Hnb) as (st'' & Hrun' & Hex & _).
      right. assert (st'' = st') as -> by congruence.
      by rewrite (exchanged_index _ _ _ Hex).
  - left. rewrite sortBody_no_entry in Hrun by by apply eq_None_not_Some. congruence.
Qed.








(** ** Resizing *)

Lemma dispatch_resize_move now lay e st :
  isResize st = true → etype e = mousemove →
  dispatch (Pointer now lay e) st = Some (computeElementSize e false st).
Proof.
  intros Hres Hty. unfold dispatch, handleUserMove, handleResize. by rewrite Hty, Hres.
Qed.

Lemma computeElementSize_keeps e st :
  isResize (computeElementSize e false st) = isResize st
  ∧ options (computeElementSize e false st) = options st
  ∧ info (computeElementSize e false st) = info st
  ∧ elPosition (computeElementSize e false st) = elPosition st
  ∧ localStorage (computeElementSize e false st) = localStorage st.
Proof.
  unfold computeElementSize, setElementSize.
  destruct (_ <? 0); [done|]. by destruct (direction (options st)).
Qed.

(** Moves of a resize never throw and write neither the snapshot nor the
    store. *)
Lemma resize_moves moves : ∀ st,
  isResize st = true → Forall isMove moves →
  ∃ st', runInputs moves st = Some st'
         ∧ isResize st' = true
         ∧ options st' = options st
         ∧ info st' = info st
         ∧ elPosition st' = elPosition st
         ∧ localStorage st' = localStorage st.
Proof.
  induction moves as [|i moves IH]; intros st Hres Hmoves.
  - by exists st.
  - apply Forall_cons in Hmoves as [Hi Hmoves].
    destruct i as [|now lay e|]; try done. simpl in Hi.
    destruct (computeElementSize_keeps e st) as (Hres1 & Hopt1 & Hinfo1 & Hpos1 & Hsto1).
    destruct (IH (computeElementSize e false st))
      as (st' & Hrun & Hres' & Hopt & Hinfo & Hpos & Hsto);
      [congruence | done |].
    exists st'. cbn [runInputs]. rewrite dispatch_resize_move by done.
    split_and!; [exact Hrun | done | congruence ..].
Qed.






(** ** Persistence of the size *)

Lemma computeElementSize_saves e st :
  localStorage (computeElementSize e true st)
  = localStorage st
    ++ [(storageKey (options st), pretty (computeSize (direction (options st)) (info st) e))].
Proof.
  unfold computeElementSize, setElementSize.
  destruct (_ <? 0); [done|]. by destruct (direction (options st)).
Qed.

(** C8: a resize that starts on the handle, continues with any moves and
    ends with a pointer-up never throws and calls [setItem] exactly once, at
    the pointer-up, with the key ["drag-" + r + "-size"] and the decimal
    string of the final size; after the pointer-down and after every prefix
    of the moves the store is as it was. *)
Theorem resize_persists_once now0 lay0 e0 moves now lay e st r :
  resizeId (options st) = Some r →
  etype e0 = mousedown → onHandle e0 st = true →
  Forall isMove moves → etype e = mouseup →
  ∃ st1 st2 st3,
    dispatch (Pointer now0 lay0 e0) st = Some st1
    ∧ runInputs moves st1 = Some st2
    ∧ dispatch (Pointer now lay e) st2 = Some st3
    ∧ runInputs (Pointer now0 lay0 e0 :: moves ++ [Pointer now lay e]) st = Some st3
    ∧ localStorage st1 = localStorage st
    ∧ (∀ k, localStorage <$> runInputs (take k moves) st1 = Some (localStorage st))
    ∧ localStorage st3
      = localStorage st
        ++ [("drag-" +:+ r +:+ "-size",
             pretty (computeSize (direction (options st)) (info st1) e))].
Proof.
  intros Hrid Hdown Hhandle Hmoves Hup.
  set (st1 := handleResize lay0 e0 (set_isResize true st)).
  assert (dispatch (Pointer now0 lay0 e0) st = Some st1) as Hstep1.
  { unfold dispatch, handleUserMove. by rewrite Hdown, Hhandle. }
  assert (isResize st1 = true ∧ options st1 = options st ∧ localStorage st1 = localStorage st)
    as (Hres1 & Hopt1 & Hsto1).
  { unfold st1, handleResize. by rewrite Hdown. }
  destruct (resize_moves moves st1 Hres1 Hmoves)
    as (st2 & Hrun & Hres2 & Hopt2 & Hinfo2 & _ & Hsto2).
  set (st3 := handleResize lay e st2).
  assert (dispatch (Pointer now lay e) st2 = Some st3) as Hstep3.
  { unfold dispatch, handleUserMove. by rewrite Hup, Hres2. }
  exists st1, st2, st3. split_and!; [done | done | done | | done | |].
  - cbn [runInputs]. rewrite Hstep1. simpl.
    clear -Hrun Hstep3. revert Hrun. generalize st1. clear st1.
    induction moves as [|i moves IH]; intros st1 Hrun; simpl in *.
    + injection Hrun as ->. by rewrite Hstep3.
    + destruct (dispatch i st1) as [s|]; [|done]. simpl in *. by apply IH.
  - intros k.
    destruct (resize_moves (take k moves) st1 Hres1) as (s & -> & _ & _ & _ & _ & Hs).
    + by apply Forall_take.
    + simpl. congruence.
  - unfold st3, handleResize. rewrite Hup.
    unfold set_isResize, set_maskClassName, set_maskDisplay. cbn [localStorage].
    rewrite computeElementSize_saves. unfold storageKey.
    rewrite Hopt2, Hopt1, Hrid, Hinfo2, Hsto2, Hsto1. done.
Qed.

Lemma resize_persists_once_witness :
  ∃ st1 st2 st3,
    dispatch pressHandle panelA = Some st1
    ∧ runInputs [dragHandle] st1 = Some st2
    ∧ dispatch releaseHandle st2 = Some st3
    ∧ localStorage st1 = []
    ∧ localStorage st2 = []
    ∧ localStorage st3 = [("drag-panelA-size", "350")].
Proof.
  destruct (resize_persists_once 0 panelLayout (pointerOn mousedown 348 100 (TargetChild 0))
              [dragHandle] 20 panelLayout (pointerOn mouseup 400 100 TargetEl) panelA "panelA")
    as (st1 & st2 & st3 & Hdown & Hmoves & Hup & _ & Hsto1 & Hprefix & Hsto3).
  - reflexivity.
  - reflexivity.
  - by vm_compute.
  - repeat constructor.
  - reflexivity.
  - exists st1, st2, st3. split_and!; [exact Hdown | exact Hmoves | exact Hup | exact Hsto1 | |].
    + specialize (Hprefix 1%nat). change (take 1 [dragHandle]) with [dragHandle] in Hprefix.
      rewrite Hmoves in Hprefix. by injection Hprefix.
    + rewrite Hsto3. unfold pressHandle in Hdown.
      assert (info st1 = info (handleResize panelLayout
                (pointerOn mousedown 348 100 (TargetChild 0)) (set_isResize true panelA))) as ->.
      { unfold dispatch, handleUserMove in Hdown. vm_compute in Hdown. injection Hdown as <-.
        by vm_compute. }
      by vm_compute.
Defined.
(** * Further properties *)

(** ** What the registry enumerates *)

Lemma own_get_keys (o : JsProps) id : id ∈ own_keys o ↔ is_Some (own_get id o).
Proof.
  unfold own_keys. induction o as [|[k w] rest IH]; simpl.
  - split; [by intros ?%elem_of_nil | by intros [? ?]].
  - rewrite elem_of_cons. case_bool_decide as Heq.
    + split; [by eexists | by left].
    + rewrite IH. split; [intros [?|?]; [congruence | done] | by right].
Qed.

Lemma lastRegistered_is_Some cs id :
  is_Some (lastRegistered cs id) ↔ ∃ c, c ∈ cs ∧ registeredId c = Some id.
Proof.
  induction cs as [|c cs IH] using rev_ind.
  - split; [by intros [? ?] | by intros (c & ?%elem_of_nil & _)].
  - rewrite lastRegistered_snoc. case_bool_decide as Hc.
    + split; [|by eexists]. intros _. exists c. split; [|done].
      apply elem_of_app. right. by apply list_elem_of_singleton.
    + rewrite IH. split.
      * intros (c' & Hin & Hc'). exists c'. split; [apply elem_of_app; by left | done].
      * intros (c' & [Hin | ->%list_elem_of_singleton]%elem_of_app & Hc'); [by exists c' | done].
Qed.

Lemma for_in_rect (o : JsObject) id pool :
  (id, PoolRect pool) ∈ for_in o ↔ (id, pool) ∈ own o.
Proof.
  unfold for_in. rewrite elem_of_app, list_elem_of_fmap. split.
  - intros [([k w] & [= -> ->] & Hin) | Hin]; [done|].
    destruct (proto o); [|by apply elem_of_nil in Hin].
    by apply list_elem_of_fmap in Hin as ([k z] & [=] & _).
  - intros Hin. left. by exists (id, pool).
Qed.

Lemma for_in_number (o : JsObject) id z :
  (id, PoolNumber z) ∈ for_in o
  ↔ ∃ r, proto o = Some r ∧ (id, z) ∈ proto_entries r ∧ id ∉ js_keys o.
Proof.
  unfold for_in. rewrite elem_of_app, list_elem_of_fmap. split.
  - intros [([k w] & [=] & _) | Hin].
    destruct (proto o) as [r|]; [|by apply elem_of_nil in Hin].
    apply list_elem_of_fmap in Hin as ([k z'] & [= -> ->] & [Hk Hin]%list_elem_of_filter).
    by exists r.
  - intros (r & -> & Hin & Hk). right.
    apply list_elem_of_fmap. exists (id, z). split; [done|]. by apply list_elem_of_filter.
Qed.

Lemma proto_entries_keys r id z :
  (id, z) ∈ proto_entries r → id ≠ "" ∧ id ≠ "__proto__".
Proof.
  unfold proto_entries. rewrite !elem_of_cons, elem_of_nil.
  intros [[= -> _] | [[= -> _] | [[= -> _] | [[= -> _] | []]]]]; done.
Qed.

(** X1: what [for ... in] finds in the registry after a series of
    constructions.  Under each identifier other than [__proto__] that was
    registered, it finds the box of the container registered last under it,
    a later registration overwriting an earlier one.  A registration as
    [__proto__] leaves no entry of its own: it makes its rectangle the
    prototype of the registry, and the loop then also visits the four
    numbers of the rectangle registered last as [__proto__], each under its
    name unless an identifier of that name is registered.  Nothing else is
    visited. *)
Theorem registry_last_write (cs : list (DraggableOptions * Box)) :
  (∀ id pool, (id, PoolRect pool) ∈ for_in (registry cs)
     ↔ id ≠ "__proto__" ∧ lastRegistered cs id = Some pool)
  ∧ (∀ id z, (id, PoolNumber z) ∈ for_in (registry cs)
       ↔ ∃ r, lastRegistered cs "__proto__" = Some r
              ∧ (id, z) ∈ proto_entries r
              ∧ lastRegistered cs id = None).
Proof.
  split.
  - intros id pool. by rewrite for_in_rect, registry_entries.
  - intros id z. rewrite for_in_number, registry_proto.
    assert (∀ r, (id, z) ∈ proto_entries r →
                 id ∉ js_keys (registry cs) ↔ lastRegistered cs id = None) as Hkey.
    { intros r [_ Hp]%proto_entries_keys. unfold js_keys.
      rewrite own_get_keys, registry_own_get, bool_decide_eq_false_2 by done.
      rewrite <- eq_None_not_Some. done. }
    split; intros (r & Hr & Hin & Hk); exists r; (split_and!; [done | done |]);
      by apply (Hkey r Hin).
Qed.

Lemma NoDup_numbers (P : string * Z → Prop) `{!∀ x, Decision (P x)} (numbers : list (string * Z)) :
  NoDup numbers.*1 →
  NoDup ((λ kz : string * Z, (kz.1, PoolNumber kz.2)) <$> filter P numbers).*1.
Proof.
  induction numbers as [|[k z] rest IH]; [constructor|].
  rewrite fmap_cons. intros [Hk Hrest]%NoDup_cons. rewrite filter_cons.
  destruct (decide (P (k, z))); [|by apply IH].
  rewrite !fmap_cons. apply NoDup_cons. split; [|by apply IH].
  intros Hin. apply Hk.
  apply list_elem_of_fmap in Hin as ([k' v] & Heq & Hin). simpl in Heq. subst k'.
  apply list_elem_of_fmap in Hin as ([k' z'] & Heq & [_ Hin]%list_elem_of_filter).
  simpl in Heq. injection Heq as Hk' _. subst k'.
  apply list_elem_of_fmap. by exists (k, z').
Qed.

Lemma for_in_key (o : JsObject) id :
  id ∈ (for_in o).*1
  ↔ id ∈ js_keys o ∨ ∃ r z, proto o = Some r ∧ (id, z) ∈ proto_entries r ∧ id ∉ js_keys o.
Proof.
  rewrite list_elem_of_fmap. split.
  - intros ([k v] & Hid & Hin). simpl in Hid. subst id. destruct v as [pool|z].
    + left. apply for_in_rect in Hin. unfold js_keys, own_keys.
      apply list_elem_of_fmap. by exists (k, pool).
    + right. apply for_in_number in Hin as (r & ? & ? & ?). by exists r, z.
  - intros [Hin | (r & z & Hr & Hin & Hk)].
    + apply list_elem_of_fmap in Hin as ([k pool] & -> & Hin).
      exists (k, PoolRect pool). split; [done|]. by apply for_in_rect.
    + exists (id, PoolNumber z). split; [done|]. apply for_in_number. by exists r.
Qed.

(** X2: the keys [for ... in] visits in the registry are visited once
    each, and neither the empty string nor [__proto__] is among them.  The
    keys of the registry's own are exactly the identifiers other than
    [__proto__] that some construction registered: a container that did not
    ask for drop-in, or asked without an identifier, does not appear. *)
Theorem registry_keys_registered (cs : list (DraggableOptions * Box)) :
  NoDup (for_in (registry cs)).*1
  ∧ ("" ∉ (for_in (registry cs)).*1)
  ∧ ("__proto__" ∉ (for_in (registry cs)).*1)
  ∧ ∀ id, id ∈ js_keys (registry cs)
          ↔ id ≠ "__proto__" ∧ ∃ c, c ∈ cs ∧ registeredId c = Some id.
Proof.
  assert (∀ id, id ∈ js_keys (registry cs)
                ↔ id ≠ "__proto__" ∧ ∃ c, c ∈ cs ∧ registeredId c = Some id) as Hkeys.
  { intros id. unfold js_keys. rewrite own_get_keys, registry_own_get.
    rewrite <- lastRegistered_is_Some.
    case_bool_decide; split; [by intros [? ?] | by intros [? _] | done | by intros [_ ?]]. }
  split_and!; [| | | done].
  - unfold for_in. rewrite fmap_app. apply NoDup_app. split_and!.
    + rewrite <- list_fmap_compose. apply registry_NoDup.
    + intros id Hown Hinh. rewrite <- list_fmap_compose in Hown.
      destruct (proto (registry cs)) as [r|]; [|by apply elem_of_nil in Hinh].
      apply list_elem_of_fmap in Hinh as ([k v] & -> & Hin).
      by apply list_elem_of_fmap in Hin as ([k' z] & [= -> ->] & [Hk _]%list_elem_of_filter).
    + destruct (proto (registry cs)) as [r|]; [|constructor].
      apply NoDup_numbers.
      unfold proto_entries. simpl. by apply (bool_decide_unpack _).
  - rewrite for_in_key. intros [Hin | (r & z & _ & [? _]%proto_entries_keys & _)]; [|done].
    by apply (registry_keys_nonempty cs).
  - rewrite for_in_key. intros [Hin | (r & z & _ & [_ ?]%proto_entries_keys & _)]; [|done].
    by apply Hkeys in Hin as [? _].
Qed.

(** ** Construction *)

Lemma construct_pools_register lay opts kids (pools : JsObject) :
  draggablePools (construct lay opts kids pools) = register pools (opts, nodeBox lay NodeEl).
Proof.
  unfold construct, initDragHandleElement, initChildren, register, initDragPoolInfo,
    updateChildrenInfo, updateElementInfo.
  simpl. repeat case_match; reflexivity.
Qed.

Lemma construct_flags lay opts kids pools :
  isChildren (options (construct lay opts kids pools))
    = isChildren opts && negb (bool_decide (kids = []))
  ∧ isAllowIn (options (construct lay opts kids pools))
    = isAllowIn opts && bool_decide (is_Some (registeredId (opts, nodeBox lay NodeEl)))
  ∧ dragId (options (construct lay opts kids pools)) = dragId opts.
Proof.
  unfold construct, initDragHandleElement, initChildren, initDragPoolInfo, registeredId,
    updateChildrenInfo, updateElementInfo.
  destruct opts as [did isC isOut isIn isS rid dir]. simpl.
  destruct isIn, isC, kids as [|kid kids], did as [[|a s]|], isS, dir; simpl; split_and!;
    first [reflexivity | by rewrite bool_decide_eq_true_2 by eauto
          | by rewrite bool_decide_eq_false_2 by by intros [? ?]].
Qed.

Lemma own_get_found (o : JsProps) id pool : own_get id o = Some pool → (id, pool) ∈ o.
Proof.
  induction o as [|[k w] rest IH]; simpl; [done|].
  case_bool_decide as Hk.
  - intros [= ->]. subst k. by left.
  - intros Hget. right. by apply IH.
Qed.

(** X3: a container constructed with drop-in allowed and a non-empty
    identifier keeps [isAllowIn].  With an identifier other than [__proto__]
    the registry then holds the box of the container as its own entry under
    that identifier, whatever it held there before; every other entry of its
    own and its prototype are as they were, and [for ... in] visits the
    identifier with that box.  With the identifier [__proto__] the
    assignment adds no entry: the registry's own entries are as they were,
    and the box of the container becomes its prototype. *)
Theorem construct_registers lay opts kids (pools : JsObject) id :
  isAllowIn opts = true → dragId opts = Some id → id ≠ "" →
  isAllowIn (options (construct lay opts kids pools)) = true
  ∧ (id ≠ "__proto__" →
       own_get id (own (draggablePools (construct lay opts kids pools)))
         = Some (registeredRect (opts, nodeBox lay NodeEl))
       ∧ (∀ id', id' ≠ id →
            own_get id' (own (draggablePools (construct lay opts kids pools)))
              = own_get id' (own pools))
       ∧ proto (draggablePools (construct lay opts kids pools)) = proto pools
       ∧ (id, PoolRect (registeredRect (opts, nodeBox lay NodeEl)))
           ∈ for_in (draggablePools (construct lay opts kids pools)))
  ∧ (id = "__proto__" →
       own (draggablePools (construct lay opts kids pools)) = own pools
       ∧ proto (draggablePools (construct lay opts kids pools))
           = Some (registeredRect (opts, nodeBox lay NodeEl))).
Proof.
  intros Hin Hid Hne.
  assert (registeredId (opts, nodeBox lay NodeEl) = Some id) as Hreg.
  { unfold registeredId. simpl. rewrite Hin, Hid. by destruct id. }
  rewrite construct_pools_register, register_spec, Hreg.
  split_and!.
  - destruct (construct_flags lay opts kids pools) as (_ & -> & _).
    rewrite Hin, Hreg. rewrite bool_decide_eq_true_2 by by eexists. done.
  - intros Hplain.
    destruct (js_set_plain id (registeredRect (opts, nodeBox lay NodeEl)) pools Hplain)
      as [Hown Hproto].
    rewrite Hown, Hproto. split_and!.
    + apply own_get_set_eq.
    + intros id' Hid'. by apply own_get_set_ne.
    + done.
    + apply for_in_rect. rewrite Hown. apply own_get_found, own_get_set_eq.
  - intros ->. apply js_set_proto.
Qed.

Lemma construct_registers_witness :
  isAllowIn (options
     (construct columnLayout (dropTarget "trayB").1 [] (registry [dropTarget "trayB"]))) = true
  ∧ own_get "trayB" (own (draggablePools
       (construct columnLayout (dropTarget "trayB").1 [] (registry [dropTarget "trayB"]))))
    = Some (PositionItem.mk 0 0 100 150 None).
Proof.
  destruct (construct_registers columnLayout (dropTarget "trayB").1 []
              (registry [dropTarget "trayB"]) "trayB") as (Hflag & Hplain & _);
    [reflexivity | reflexivity | done |].
  split; [exact Hflag|]. by apply Hplain.
Defined.

(** X4: a container constructed without an identifier, or with the empty
    one, leaves the registry exactly as it was and ends with [isAllowIn]
    off, whether or not drop-in was asked for. *)
Theorem construct_without_identifier lay opts kids (pools : JsObject) :
  dragId opts = None ∨ dragId opts = Some "" →
  draggablePools (construct lay opts kids pools) = pools
  ∧ isAllowIn (options (construct lay opts kids pools)) = false.
Proof.
  intros Hid.
  assert (registeredId (opts, nodeBox lay NodeEl) = None) as Hreg.
  { unfold registeredId. simpl. destruct (isAllowIn opts); [|done]. by destruct Hid as [-> | ->]. }
  rewrite construct_pools_register, register_spec, Hreg. split; [done|].
  destruct (construct_flags lay opts kids pools) as (_ & -> & _).
  rewrite Hreg. rewrite (bool_decide_eq_false_2 (is_Some None)) by by intros [? ?].
  apply andb_false_r.
Qed.

Lemma construct_without_identifier_witness :
  draggablePools (sortableList DirNone) = registry [dropTarget "trayB"]
  ∧ isAllowIn (options (sortableList DirNone)) = false.
Proof.
  apply (construct_without_identifier columnLayout (sortableOptions DirNone)
           [plainChild; plainChild; plainChild] (registry [dropTarget "trayB"])).
  by left.
Defined.

(** X5: construction in children-mode numbers the children in document
    order: child [i] gets the order value [i] and the [drag-index] [i],
    whatever it carried before, and a handle, if there is one, comes after
    them without either. *)
Theorem construct_numbers_children lay opts kids pools :
  isChildren opts = true →
  length (children (construct lay opts kids pools))
    = (length kids + length (handles opts))%nat
  ∧ (∀ i, (i < length kids)%nat →
       ∃ c, children (construct lay opts kids pools) !! i = Some c
            ∧ order c = Some (Z.of_nat i)
            ∧ dragIndexAttr c = Some (Z.of_nat i)
            ∧ Some (isHandle c) = isHandle <$> kids !! i)
  ∧ (∀ i c, (length kids ≤ i)%nat →
       children (construct lay opts kids pools) !! i = Some c →
       c = handleChild).
Proof.
  intros HisC. rewrite construct_children, HisC. split_and!.
  - by rewrite length_app, length_imap.
  - intros i Hi.
    destruct (lookup_lt_is_Some_2 kids i Hi) as [kid Hkid].
    exists (numberChild i kid). rewrite lookup_app_l by by rewrite length_imap.
    rewrite list_lookup_imap, Hkid. done.
  - intros i c Hi. rewrite lookup_app_r by by rewrite length_imap.
    unfold handles. intros Hc%list_elem_of_lookup_2.
    destruct (direction opts); first [by apply elem_of_nil in Hc
                                     | by apply list_elem_of_singleton in Hc].
Qed.

Lemma construct_numbers_children_witness :
  order <$> children (sortableList DirRight) = [Some 0; Some 1; Some 2; None]
  ∧ length (children (sortableList DirRight)) = 4%nat.
Proof.
  destruct (construct_numbers_children columnLayout (sortableOptions DirRight)
              [plainChild; plainChild; plainChild] (registry [dropTarget "trayB"]))
    as (Hlen & _ & _); [reflexivity|].
  split; [reflexivity | exact Hlen].
Defined.

(** ** What an input can and cannot do *)

Lemma writeOrder_keeps a v (cs : list Child) :
  dragIndexAttr <$> writeOrder a v cs = dragIndexAttr <$> cs
  ∧ isHandle <$> writeOrder a v cs = isHandle <$> cs.
Proof.
  unfold writeOrder. split.
  - rewrite (list_fmap_alter dragIndexAttr _ id) by by apply Forall_forall.
    by apply list_alter_id.
  - rewrite (list_fmap_alter isHandle _ id) by by apply Forall_forall.
    by apply list_alter_id.
Qed.

Lemma swapWith_children index st s :
  swapWith index st = Some s →
  ∃ a b, children s = writeOrder b (dragIndex st) (writeOrder a index (children st)).
Proof.
  unfold swapWith. intros H.
  destruct (childrenInfos st !! pretty (dragIndex st)) as [me|]; [|done]. simpl in H.
  destruct (PositionItem.el me) as [a|]; [|done]. simpl in H.
  destruct (childrenInfos st !! pretty index) as [other|]; [|done]. simpl in H.
  destruct (PositionItem.el other) as [b|]; [|done]. simpl in H.
  injection H as <-. by exists a, b.
Qed.

Lemma sortBody_keeps_attributes lay point st st' :
  sortBody lay point st = Some st' →
  dragIndexAttr <$> children st' = dragIndexAttr <$> children st
  ∧ isHandle <$> children st' = isHandle <$> children st.
Proof.
  unfold sortBody. intros H.
  destruct (_ && _); [|by injection H as <-].
  destruct (swapWith _ st) as [s|] eqn:Hswap; [|done]. simpl in H. injection H as <-.
  apply swapWith_children in Hswap as (a & b & Hch).
  unfold updateChildrenInfo. simpl. rewrite Hch.
  destruct (writeOrder_keeps b (dragIndex st)
              (writeOrder a (sortTarget st point) (children st))) as [-> ->].
  apply writeOrder_keeps.
Qed.

Lemma sortInvariant_same n hs st st1 :
  sameSortData st st1 → sortInvariant n hs st → sortInvariant n hs st1.
Proof.
  intros Hsame [Hempty | Htr].
  - left. destruct Hsame as (_ & _ & -> & _). done.
  - right. by eapply tracked_same.
Qed.


Lemma startDrag_current lay e st :
  current (startDrag lay e st) = Some (NodeProxy (clones st))
  ∧ body (startDrag lay e st) = body st ++ [NodeProxy (clones st)]
  ∧ maskDisplay (startDrag lay e st) = true
  ∧ isResize (startDrag lay e st) = isResize st.
Proof.
  unfold startDrag, updateElementInfo. simpl. by destruct (isSort (options st)).
Qed.









(** ** Gestures, one effect at a time *)




Lemma reachableFrom_run inputs : ∀ st0 st,
  reachableFrom st0 st → deliverableRun inputs st → reachableFrom st0 (after inputs st).
Proof.
  unfold after. induction inputs as [|i rest IH]; intros st0 st Hreach Hrun; [done|].
  destruct Hrun as [Hdel Hrest]. simpl.
  destruct (dispatch i st) as [st'|] eqn:Hstep; [|done]. simpl.
  assert (reachableFrom st0 st') as Hreach' by by eapply reachable_dispatch.
  specialize (IH st0 st' Hreach' Hrest).
  by destruct (runInputs rest st').
Qed.

Ltac run_deliverable := vm_compute; repeat split; first [done | lia | by eexists].

(** X7: where the nodes of the instance under [document.body] come and
    go.  A press that the instance handles as a drag (not on the resize
    handle, no resize pending) appends one new proxy to the body and makes
    it [$current]; whatever was attached before stays.  A release that it
    handles as a drag removes [$current] from the body, where it was, and
    leaves every other node, so a proxy that is no longer [$current] when
    the release arrives stays attached; [$current] keeps referring to the
    removed node.  No other input changes the body or clones anything. *)
Theorem proxies_attached_and_removed i st st' :
  dispatch i st = Some st' →
  (∀ now lay e, i = Pointer now lay e → etype e = mousedown →
     onHandle e st = false → isResize st = false →
     body st' = body st ++ [NodeProxy (clones st)]
     ∧ current st' = Some (NodeProxy (clones st))
     ∧ clones st' = S (clones st))
  ∧ (∀ now lay e, i = Pointer now lay e → etype e = mouseup → isResize st = false →
     ∃ n, current st = Some n ∧ n ∈ body st
          ∧ body st' = filter (λ m, m ≠ n) (body st)
          ∧ current st' = Some n ∧ clones st' = clones st)
  ∧ (body st' = body st ∧ clones st' = clones st
     ∨ ∃ now lay e, i = Pointer now lay e ∧ isResize st = false
         ∧ (etype e = mouseup ∨ etype e = mousedown ∧ onHandle e st = false)).
Proof.
  intros Hstep. destruct i as [|now lay e|now lay].
  - simpl in Hstep. injection Hstep as <-. simpl. split_and!; [done | done | by left].
  - unfold_handlers. destruct (etype e) eqn:Hty.
    + destruct (onHandle e st) eqn:Hh; simpl in Hstep.
      * injection Hstep as <-. simpl.
        split_and!; [intros ? ? ? [= <- <- <-]; congruence | intros ? ? ? [= <- <- <-]; congruence | by left].
      * destruct (isResize st) eqn:Hr.
        -- injection Hstep as <-. simpl.
           split_and!; [intros ? ? ? [= <- <- <-]; congruence | intros ? ? ? [= <- <- <-]; congruence | by left].
        -- destruct (isSort (options st)); simpl in Hstep; injection Hstep as <-; simpl.
           all: split_and!;
             [done | intros ? ? ? [= <- <- <-]; congruence
             | right; exists now, lay, e; split_and!; [done | done | by right]].
    + assert (body st' = body st ∧ clones st' = clones st) as Hsame.
      { destruct (isResize st) eqn:Hr.
        - injection Hstep as <-. simpl.
          destruct (_ <? 0); [done|]. by destruct (direction (options st)).
        - destruct (current st) as [[|id]|] eqn:Hcur; [| |done]; simpl in Hstep.
          all: destruct (debounced _ _ _) as [g [args|]];
            [apply sortBody_onlySortChanged in Hstep; rewrite Hstep
            |injection Hstep as <-]; done. }
      split_and!; [intros ? ? ? [= <- <- <-]; congruence
                  | intros ? ? ? [= <- <- <-]; congruence | by left].
    + destruct (isResize st) eqn:Hr.
      * injection Hstep as <-. simpl.
        split_and!; [intros ? ? ? [= <- <- <-]; congruence | intros ? ? ? [= <- <- <-]; congruence |].
        left. destruct (_ <? 0); [done|]. by destruct (direction (options st)).
      * destruct (current st) as [nd|] eqn:Hcur; [|done].
        assert (∃ s, Some s = (match nd with
                               | NodeEl => Some (set_elPosition
                                   (Some (computeElementPosition (options st) (info st) e)) st)
                               | NodeProxy _ => Some (set_proxyPosition
                                   (Some (computeElementPosition (options st) (info st) e)) st)
                               end)
                     ∧ current s = Some nd ∧ body s = body st ∧ clones s = clones st)
          as (s & Hs & Hcur' & Hbody' & Hcl').
        { destruct nd; eexists; split; done. }
        rewrite <- Hs in Hstep. simpl in Hstep.
        destruct (isAllowOut (options s)) eqn:Hout;
          [destruct (negb _ && _) eqn:Hcall|]; simpl in Hstep;
          rewrite ?Hcur' in Hstep; simpl in Hstep;
          (destruct (bool_decide (nd ∈ body s)) eqn:Hin in Hstep; [|done]);
          injection Hstep as <-; simpl.
        all: apply bool_decide_eq_true_1 in Hin; rewrite Hbody' in Hin.
        all: split_and!;
          [intros ? ? ? [= <- <- <-]; congruence
          | intros ? ? ? _ _ _; exists nd; rewrite Hbody'; by split_and!
          | right; exists now, lay, e; split_and!; [done | done | by left]].
  - unfold_handlers. destruct (timerExpired _ _) as [g [args|]].
    + apply sortBody_onlySortChanged in Hstep. rewrite Hstep. simpl.
      split_and!; [done | done | by left].
    + injection Hstep as <-. simpl. split_and!; [done | done | by left].
Qed.

Lemma proxies_attached_and_removed_witness :
  dispatch grabFirst (sortableList DirNone) = Some (after [grabFirst] (sortableList DirNone))
  ∧ body (after [grabFirst] (sortableList DirNone)) = [NodeProxy 0]
  ∧ current (after [grabFirst] (sortableList DirNone)) = Some (NodeProxy 0).
Proof.
  assert (dispatch grabFirst (sortableList DirNone)
          = Some (after [grabFirst] (sortableList DirNone))) as Hstep by by vm_compute.
  split; [exact Hstep|].
  destruct (proj1 (proxies_attached_and_removed _ _ _ Hstep)
              0 columnLayout (pointerOn mousedown 5 5 (TargetChild 0)))
    as (Hbody & Hcur & _); [reflexivity | reflexivity | by vm_compute | by vm_compute |].
  split; [rewrite Hbody | rewrite Hcur]; by vm_compute.
Defined.

(** What one input can write, field by field. *)
Ltac frame_cases :=
  split_and!;
  first [by left
        | right; eexists _, _, _; split_and!; first [done | congruence]
        | by right].

Lemma dispatch_frame i st st' :
  dispatch i st = Some st' →
  (info st' = info st ∧ clones st' = clones st ∧ current st' = current st
   ∨ ∃ now lay e, i = Pointer now lay e ∧ etype e = mousedown)
  ∧ (localStorage st' = localStorage st
     ∨ ∃ now lay e, i = Pointer now lay e ∧ etype e = mouseup ∧ isResize st = true
         ∧ localStorage st'
           = localStorage st
             ++ [(storageKey (options st),
                  pretty (computeSize (direction (options st)) (info st) e))])
  ∧ (dragCalls st' = dragCalls st
     ∨ ∃ now lay e, i = Pointer now lay e ∧ etype e = mouseup ∧ isResize st = false
         ∧ isAllowOut (options st) = true ∧ eventFnsDrag st = true
         ∧ checkPoolsCoincide (draggablePools st) (pagePoint (pageX e) (pageY e)) ≠ ""
         ∧ dragCalls st'
           = dragCalls st
             ++ [(checkPoolsCoincide (draggablePools st) (pagePoint (pageX e) (pageY e)),
                  dragIndex st)])
  ∧ (elWidth st' = elWidth st ∧ elHeight st' = elHeight st
     ∨ ∃ now lay e, i = Pointer now lay e ∧ etype e ≠ mousedown ∧ isResize st = true)
  ∧ (eventFnsDrag st' = eventFnsDrag st ∨ i = OnDrag).
Proof.
  intros Hstep. destruct i as [|now lay e|now lay].
  - simpl in Hstep. injection Hstep as <-. simpl. split_and!; by (left + right).
  - unfold_handlers. destruct (etype e) eqn:Hty.
    + destruct (onHandle e st); simpl in Hstep.
      * injection Hstep as <-. simpl.
        frame_cases.
      * destruct (isResize st) eqn:Hr.
        -- injection Hstep as <-. simpl.
           frame_cases.
        -- destruct (isSort (options st)); simpl in Hstep; injection Hstep as <-; simpl;
             frame_cases.
    + destruct (isResize st) eqn:Hr.
      * injection Hstep as <-. simpl.
        destruct (_ <? 0); [|destruct (direction (options st))]; simpl;
          frame_cases.
      * destruct (current st) as [[|id]|] eqn:Hcur; [| |done]; simpl in Hstep.
        all: destruct (debounced _ _ _) as [g [args|]];
          [apply sortBody_onlySortChanged in Hstep; rewrite Hstep
          |injection Hstep as <-]; simpl; split_and!; by left.
    + destruct (isResize st) eqn:Hr.
      * injection Hstep as <-. simpl.
        destruct (_ <? 0); [|destruct (direction (options st)) eqn:Hd]; simpl;
          frame_cases.
      * destruct (current st) as [[|id]|] eqn:Hcur; [| |done]; simpl in Hstep.
        all: destruct (isAllowOut (options st)) eqn:Hout;
          [destruct (negb _ && _) eqn:Hcall|]; simpl in Hstep;
          rewrite ?Hcur in Hstep; simpl in Hstep;
          (destruct (bool_decide _) in Hstep; [|done]); injection Hstep as <-; simpl.
        all: try (apply andb_true_iff in Hcall as [Hid%negb_true_iff%bool_decide_eq_false Hfn]).
        all: frame_cases.
  - unfold_handlers. destruct (timerExpired _ _) as [g [args|]].
    + apply sortBody_onlySortChanged in Hstep. rewrite Hstep. simpl.
      split_and!; by left.
    + injection Hstep as <-. simpl. split_and!; by left.
Qed.

(** The resize flag after an input. *)
Lemma dispatch_isResize i st st' :
  dispatch i st = Some st' →
  isResize st' =
    match i with
    | Pointer _ _ e =>
        match etype e with
        | mousedown => onHandle e st || isResize st
        | mousemove => isResize st
        | mouseup => false
        end
    | _ => isResize st
    end.
Proof.
  intros Hstep. destruct i as [|now lay e|now lay].
  - simpl in Hstep. by injection Hstep as <-.
  - unfold_handlers. destruct (etype e) eqn:Hty.
    + destruct (onHandle e st); simpl in Hstep.
      * by injection Hstep as <-.
      * destruct (isResize st) eqn:Hr.
        -- by injection Hstep as <-.
        -- destruct (isSort (options st)); simpl in Hstep; by injection Hstep as <-.
    + destruct (isResize st) eqn:Hr.
      * injection Hstep as <-. simpl.
        destruct (_ <? 0); [done|]. by destruct (direction (options st)).
      * destruct (current st) as [[|id]|] eqn:Hcur; [| |done]; simpl in Hstep.
        all: destruct (debounced _ _ _) as [g [args|]];
          [apply sortBody_onlySortChanged in Hstep; rewrite Hstep
          |injection Hstep as <-]; done.
    + destruct (isResize st) eqn:Hr.
      * by injection Hstep as <-.
      * destruct (current st) as [[|id]|] eqn:Hcur; [| |done]; simpl in Hstep.
        all: destruct (isAllowOut (options st)) eqn:Hout;
          [destruct (negb _ && _) eqn:Hcall|]; simpl in Hstep;
          rewrite ?Hcur in Hstep; simpl in Hstep;
          (destruct (bool_decide _) in Hstep; [|done]); by injection Hstep as <-.
  - unfold_handlers. destruct (timerExpired _ _) as [g [args|]].
    + apply sortBody_onlySortChanged in Hstep. by rewrite Hstep.
    + by injection Hstep as <-.
Qed.

(** X9: storage and the callback are written at a release and nowhere
    else: [localStorage.setItem] runs only at the pointer-up of a resize,
    the [drag] callback only at the pointer-up of a drag with drag-out
    allowed and a callback registered, the size of the container changes
    only while a resize is in progress, and the snapshot [info] and
    [$current] are replaced only at a press. *)
Theorem effects_only_where_written i st st' :
  dispatch i st = Some st' →
  (localStorage st' ≠ localStorage st →
   ∃ now lay e, i = Pointer now lay e ∧ etype e = mouseup ∧ isResize st = true)
  ∧ (dragCalls st' ≠ dragCalls st →
     ∃ now lay e, i = Pointer now lay e ∧ etype e = mouseup ∧ isResize st = false
                  ∧ isAllowOut (options st) = true ∧ eventFnsDrag st = true)
  ∧ (elWidth st' ≠ elWidth st ∨ elHeight st' ≠ elHeight st →
     ∃ now lay e, i = Pointer now lay e ∧ etype e ≠ mousedown ∧ isResize st = true)
  ∧ (info st' ≠ info st ∨ current st' ≠ current st →
     ∃ now lay e, i = Pointer now lay e ∧ etype e = mousedown).
Proof.
  intros Hstep.
  destruct (dispatch_frame i st st' Hstep) as (Hinfo & Hsto & Hcall & Hsize & _).
  split_and!.
  - intros Hne. destruct Hsto as [? | (now & lay & e & ? & ? & ? & _)]; [done|].
    by exists now, lay, e.
  - intros Hne. destruct Hcall as [? | (now & lay & e & ? & ? & ? & ? & ? & _)]; [done|].
    by exists now, lay, e.
  - intros Hne. destruct Hsize as [[??] | ?]; [|done]. by destruct Hne.
  - intros Hne. destruct Hinfo as [(? & _ & ?) | ?]; [|done]. by destruct Hne.
Qed.

Lemma effects_only_where_written_witness :
  ∃ now lay e,
    releaseHandle = Pointer now lay e ∧ etype e = mouseup
    ∧ isResize (after [pressHandle; dragHandle] panelA) = true.
Proof.
  apply (proj1 (effects_only_where_written releaseHandle
                  (after [pressHandle; dragHandle] panelA)
                  (after [pressHandle; dragHandle; releaseHandle] panelA)
                  ltac:(by vm_compute))).
  by vm_compute.
Defined.

(** During a drag, an input that can run the check leaves the gesture as
    it is. *)
Lemma drag_state_step i s s' id :
  runsCheck i → isResize s = false → current s = Some (NodeProxy id) →
  dispatch i s = Some s' →
  isResize s' = false ∧ current s' = Some (NodeProxy id) ∧ info s' = info s
  ∧ options s' = options s ∧ elPosition s' = elPosition s.
Proof.
  intros Hi Hr Hcur Hstep.
  destruct i as [|now lay e|now lay]; [done| |].
  - simpl in Hi. unfold_handlers. rewrite Hi, Hr, Hcur in Hstep. simpl in Hstep.
    destruct (debounced _ _ _) as [g [args|]];
      [apply sortBody_onlySortChanged in Hstep; rewrite Hstep
      |injection Hstep as <-]; done.
  - unfold_handlers. destruct (timerExpired _ _) as [g [args|]];
      [apply sortBody_onlySortChanged in Hstep; rewrite Hstep
      |injection Hstep as <-]; done.
Qed.

Lemma drag_state_run mid : ∀ s s' id,
  Forall runsCheck mid → isResize s = false → current s = Some (NodeProxy id) →
  runInputs mid s = Some s' →
  isResize s' = false ∧ current s' = Some (NodeProxy id) ∧ info s' = info s
  ∧ options s' = options s ∧ elPosition s' = elPosition s.
Proof.
  induction mid as [|i rest IH]; intros s s' id Hmid Hr Hcur Hrun.
  - simpl in Hrun. by injection Hrun as <-.
  - apply Forall_cons in Hmid as [Hi Hrest]. simpl in Hrun.
    destruct (dispatch i s) as [s1|] eqn:Hstep; [|done]. simpl in Hrun.
    destruct (drag_state_step i s s1 id Hi Hr Hcur Hstep) as (Hr1 & Hcur1 & Hi1 & Ho1 & Hp1).
    destruct (IH s1 s' id Hrest Hr1 Hcur1 Hrun) as (? & ? & ? & ? & ?).
    split_and!; congruence.
Qed.

Lemma startDrag_keeps lay e st :
  options (startDrag lay e st) = options st
  ∧ elPosition (startDrag lay e st) = elPosition st
  ∧ offsetTop (info (startDrag lay e st)) = offsetY e
  ∧ offsetLeft (info (startDrag lay e st)) = offsetX e.
Proof. unfold startDrag, updateElementInfo. simpl. by destruct (isSort (options st)). Qed.

Lemma set_proxyPosition_keeps p s :
  isResize (set_proxyPosition p s) = isResize s
  ∧ current (set_proxyPosition p s) = current s
  ∧ info (set_proxyPosition p s) = info s
  ∧ options (set_proxyPosition p s) = options s
  ∧ elPosition (set_proxyPosition p s) = elPosition s.
Proof. done. Qed.

(** A press on anything but the handle, outside a resize. *)
Lemma dispatch_press now lay e st :
  etype e = mousedown → isResize st = false → onHandle e st = false →
  dispatch (Pointer now lay e) st
  = Some (set_proxyPosition
            (Some (computeElementPosition (options st) (info (startDrag lay e st)) e))
            (startDrag lay e st)).
Proof.
  intros Hty Hr Hh.
  destruct (startDrag_current lay e st) as (Hcur & _).
  destruct (startDrag_keeps lay e st) as (Hopt & _).
  unfold dispatch, handleUserMove, handleDraggable, reanderCurrentStyle.
  rewrite Hty, Hh, Hr. cbv beta iota zeta. rewrite Hcur, Hopt. done.
Qed.

(** A move or a release during a drag. *)
Lemma dispatch_drag now lay e s s' id :
  etype e ≠ mousedown → isResize s = false → current s = Some (NodeProxy id) →
  dispatch (Pointer now lay e) s = Some s' →
  proxyPosition s' = Some (computeElementPosition (options s) (info s) e)
  ∧ elPosition s' = elPosition s.
Proof.
  intros Hty Hr Hcur Hstep. unfold dispatch, handleUserMove in Hstep.
  assert (handleDraggable now lay e s = Some s') as Hdrag.
  { rewrite Hr in Hstep. by destruct (etype e). }
  clear Hstep. unfold handleDraggable, reanderCurrentStyle in Hdrag.
  destruct (etype e) eqn:Hte; [done| |]; cbv beta iota zeta in Hdrag;
    rewrite Hcur in Hdrag; simpl in Hdrag.
  - unfold checkChildrenSort in Hdrag. simpl in Hdrag.
    destruct (debounced _ _ _) as [g [args|]];
      [apply sortBody_onlySortChanged in Hdrag; rewrite Hdrag
      |injection Hdrag as <-]; done.
  - unfold endDrag, removeCurrent in Hdrag. simpl in Hdrag.
    destruct (isAllowOut (options s)) eqn:Hout;
      [destruct (negb _ && _) eqn:Hcall|]; simpl in Hdrag;
      rewrite ?Hcur in Hdrag; simpl in Hdrag;
      (destruct (bool_decide _) in Hdrag; [|done]); by injection Hdrag as <-.
Qed.

(** X10: a drag keeps the offset of its grab.  After a press on anything
    but the resize handle, through any moves and time-outs, every further
    move or release positions the proxy, and never the container, at the
    position computed from the snapshot taken at the press: the pointer
    minus the offset of the press inside its target, clamped by the boxes
    measured then. *)
Theorem drag_keeps_grab_offset now0 lay0 e0 mid now lay e st st1 st2 :
  etype e0 = mousedown → isResize st = false → onHandle e0 st = false →
  Forall runsCheck mid →
  runInputs (Pointer now0 lay0 e0 :: mid) st = Some st1 →
  etype e ≠ mousedown →
  dispatch (Pointer now lay e) st1 = Some st2 →
  proxyPosition st2
    = Some (computeElementPosition (options st) (info (startDrag lay0 e0 st)) e)
  ∧ offsetTop (info (startDrag lay0 e0 st)) = offsetY e0
  ∧ offsetLeft (info (startDrag lay0 e0 st)) = offsetX e0
  ∧ elPosition st2 = elPosition st.
Proof.
  intros Hty0 Hr Hh Hmid Hrun Hty Hstep.
  destruct (startDrag_current lay0 e0 st) as (Hcur0 & _ & _ & Hr0).
  destruct (startDrag_keeps lay0 e0 st) as (Hopt0 & Hpos0 & Hotop & Holeft).
  change (dispatch (Pointer now0 lay0 e0) st ≫= runInputs mid = Some st1) in Hrun.
  rewrite dispatch_press in Hrun by done.
  destruct (set_proxyPosition_keeps
              (Some (computeElementPosition (options st) (info (startDrag lay0 e0 st)) e0))
              (startDrag lay0 e0 st)) as (Er & Ec & Ei & Eo & Ep).
  set (s0 := set_proxyPosition _ (startDrag lay0 e0 st)) in *.
  assert (runInputs mid s0 = Some st1) as Hrun0 by exact Hrun.
  assert (isResize s0 = false) as Hr0' by congruence.
  assert (current s0 = Some (NodeProxy (clones st))) as Hcur0' by congruence.
  clear Hrun.
  destruct (drag_state_run mid s0 st1 (clones st) Hmid Hr0' Hcur0' Hrun0)
    as (Hr1 & Hcur1 & Hi1 & Ho1 & Hp1).
  assert (info st1 = info (startDrag lay0 e0 st)) as Hi1' by congruence.
  assert (options st1 = options st) as Ho1' by congruence.
  assert (elPosition st1 = elPosition st) as Hp1' by congruence.
  destruct (dispatch_drag now lay e st1 st2 (clones st) Hty Hr1 Hcur1 Hstep) as [Hpp Hep].
  split_and!; [|done|done|congruence].
  by rewrite Hpp, Hi1', Ho1'.
Qed.

Lemma drag_keeps_grab_offset_witness :
  proxyPosition (after [grabFirst; moveDown; releaseOverTray] (sortableList DirNone))
  = Some (145, 145).
Proof.
  destruct (drag_keeps_grab_offset 0 columnLayout (pointerOn mousedown 5 5 (TargetChild 0))
              [moveDown] 20 columnLayout (pointerOn mouseup 150 150 TargetEl)
              (sortableList DirNone)
              (after [grabFirst; moveDown] (sortableList DirNone))
              (after [grabFirst; moveDown; releaseOverTray] (sortableList DirNone)))
    as (Hpos & _).
  - reflexivity.
  - by vm_compute.
  - by vm_compute.
  - repeat constructor.
  - by vm_compute.
  - discriminate.
  - by vm_compute.
  - rewrite Hpos. by vm_compute.
Defined.

(** *** The resize handle *)

Lemma dispatch_keeps_attributes i st st' :
  dispatch i st = Some st' →
  dragIndexAttr <$> children st' = dragIndexAttr <$> children st
  ∧ isHandle <$> children st' = isHandle <$> children st.
Proof.
  intros Hstep.
  apply dispatch_sortData in Hstep
    as [[(_ & -> & _) _] | (st1 & lay & point & (_ & Hch & _) & _ & Hrun)]; [done|].
  rewrite <- Hch. by eapply sortBody_keeps_attributes.
Qed.

Lemma reachableFrom_attributes st0 st :
  reachableFrom st0 st →
  dragIndexAttr <$> children st = dragIndexAttr <$> children st0
  ∧ isHandle <$> children st = isHandle <$> children st0.
Proof.
  induction 1 as [|st i st' _ [IH1 IH2] _ Hstep]; [done|].
  destruct (dispatch_keeps_attributes i st st' Hstep) as [-> ->]. done.
Qed.

Lemma construct_handles lay opts kids pools :
  isHandle <$> children (construct lay opts kids pools)
  = (isHandle <$> kids) ++ (isHandle <$> handles opts).
Proof.
  rewrite construct_children, fmap_app. f_equal.
  destruct (isChildren opts); [|done].
  rewrite fmap_imap. by rewrite <- (imap_const isHandle kids).
Qed.

Lemma noHandle_onHandle e st :
  noHandle (children st) → onHandle e st = false.
Proof.
  intros Hno. unfold onHandle. destruct (target e) as [|i]; [done|].
  destruct (children st !! i) as [c|] eqn:Hc; [|done].
  by apply (proj1 (Forall_forall _ _) Hno c), list_elem_of_lookup_2 with i.
Qed.

Lemma noHandle_fmap (cs : list Child) :
  noHandle cs ↔ Forall (λ b, b = false) (isHandle <$> cs).
Proof. unfold noHandle. by rewrite Forall_fmap. Qed.

(** X11: a container without a resize direction never resizes.  When no
    direction is given no handle is appended, and then no input ever starts
    a resize: the flag stays off, the width and the height of the container
    are never written, and nothing is stored. *)
Theorem no_direction_no_resize lay opts kids cs st :
  direction opts = DirNone → noHandle kids →
  reachableFrom (construct lay opts kids (registry cs)) st →
  noHandle (children st)
  ∧ isResize st = false
  ∧ elWidth st = None ∧ elHeight st = None
  ∧ localStorage st = [].
Proof.
  intros Hdir Hkids Hreach.
  assert (noHandle (children st)) as Hno.
  { apply noHandle_fmap. destruct (reachableFrom_attributes _ _ Hreach) as [_ ->].
    rewrite construct_handles. unfold handles. rewrite Hdir, app_nil_r.
    by apply noHandle_fmap. }
  split; [done|]. clear Hno.
  induction Hreach as [|st i st' Hreach IH Hdel Hstep].
  - unfold construct, initDragHandleElement, initChildren, initDragPoolInfo,
      updateChildrenInfo, updateElementInfo.
    simpl. repeat case_match; simpl; done.
  - destruct IH as (Hr & Hw & Hh & Hsto).
    assert (noHandle (children st)) as Hno.
    { apply noHandle_fmap. destruct (reachableFrom_attributes _ _ Hreach) as [_ ->].
      rewrite construct_handles. unfold handles. rewrite Hdir, app_nil_r.
      by apply noHandle_fmap. }
    pose proof (dispatch_isResize i st st' Hstep) as Hr'.
    destruct (dispatch_frame i st st' Hstep) as (_ & Hsto' & _ & Hsize & _).
    split_and!.
    + rewrite Hr'. destruct i as [|now lay' e|]; [done| |done].
      rewrite (noHandle_onHandle e st Hno), Hr. by destruct (etype e).
    + destruct Hsize as [[-> _] | (? & ? & ? & _ & _ & ?)]; congruence.
    + destruct Hsize as [[_ ->] | (? & ? & ? & _ & _ & ?)]; congruence.
    + destruct Hsto' as [-> | (? & ? & ? & _ & _ & ? & _)]; congruence.
Qed.

Lemma no_direction_no_resize_witness :
  isResize (after [OnDrag; grabFirst; moveDown; releaseOverTray] (sortableList DirNone))
  = false
  ∧ localStorage (after [OnDrag; grabFirst; moveDown; releaseOverTray] (sortableList DirNone))
    = [].
Proof.
  destruct (no_direction_no_resize columnLayout (sortableOptions DirNone)
              [plainChild; plainChild; plainChild] [dropTarget "trayB"]
              (after [OnDrag; grabFirst; moveDown; releaseOverTray] (sortableList DirNone)))
    as (_ & Hr & _ & _ & Hsto).
  - reflexivity.
  - repeat constructor.
  - apply reachableFrom_run; [apply reachable_start | run_deliverable].
  - by split.
Defined.



(** ** The drag index *)

Lemma construct_isChildren lay opts kids pools :
  isChildren (options (construct lay opts kids pools))
  = isChildren opts && negb (bool_decide (kids = [])).
Proof.
  unfold construct, initDragHandleElement, initChildren.
  destruct (initDragPoolInfo_keeps lay (fresh opts kids pools))
    as (Hch & Htab & HisC & HisS & _ & _ & Hdir).
  simpl in *. rewrite HisC, HisS, Hch.
  destruct (isChildren opts) eqn:HC, kids as [|kid kids], (isSort opts); simpl;
    rewrite ?Hdir; destruct (direction opts); simpl; by rewrite ?HisC, ?HC.
Qed.

(** The children numbered at construction keep their [drag-index] and
    stay what they are. *)
Lemma reachableFrom_child lay opts kids cs st i :
  isChildren opts = true →
  reachableFrom (construct lay opts kids (registry cs)) st →
  (i < length kids)%nat →
  ∃ c, children st !! i = Some c
       ∧ dragIndexAttr c = Some (Z.of_nat i)
       ∧ Some (isHandle c) = isHandle <$> kids !! i.
Proof.
  intros HisC Hreach Hi.
  destruct (reachableFrom_attributes _ _ Hreach) as [Hattr Hhand].
  destruct (lookup_lt_is_Some_2 kids i Hi) as [kid Hkid].
  assert (children (construct lay opts kids (registry cs)) !! i = Some (numberChild i kid))
    as H0.
  { rewrite construct_children, HisC, lookup_app_l by by rewrite length_imap.
    by rewrite list_lookup_imap, Hkid. }
  assert ((dragIndexAttr <$> children st) !! i = Some (Some (Z.of_nat i))) as H1.
  { by rewrite Hattr, list_lookup_fmap, H0. }
  assert ((isHandle <$> children st) !! i = Some (isHandle kid)) as H2.
  { by rewrite Hhand, list_lookup_fmap, H0. }
  rewrite list_lookup_fmap in H1. rewrite list_lookup_fmap in H2.
  destruct (children st !! i) as [c|]; [|done].
  exists c. simpl in *. rewrite Hkid. simpl. split_and!; congruence.
Qed.

Lemma startDrag_sort lay e st :
  dragIndex (startDrag lay e st)
  = parseIntOr (targetChild st e ≫= if isSort (options st) then order else dragIndexAttr)
  ∧ children (startDrag lay e st) = children st
  ∧ childrenInfos (startDrag lay e st) = childrenInfos st.
Proof. unfold startDrag, updateElementInfo. simpl. by destruct (isSort (options st)). Qed.

Lemma set_proxyPosition_sort p s :
  dragIndex (set_proxyPosition p s) = dragIndex s
  ∧ children (set_proxyPosition p s) = children s
  ∧ childrenInfos (set_proxyPosition p s) = childrenInfos s.
Proof. done. Qed.

(** The state a press on a child that is no handle leaves behind, as far
    as sorting goes. *)
Lemma press_child now lay x y ox oy i st c :
  isResize st = false → children st !! i = Some c → isHandle c = false →
  isChildren (options st) = true →
  ∃ s, dispatch (pressChild now lay x y ox oy i) st = Some s
       ∧ dragIndex s = parseIntOr (if isSort (options st) then order c else dragIndexAttr c)
       ∧ children s = children st
       ∧ childrenInfos s = childrenInfos st
       ∧ options s = options st.
Proof.
  intros Hr Hc Hh HisC.
  pose (e := pressEvent x y ox oy i).
  assert (onHandle e st = false) as Hon by (unfold onHandle; simpl; by rewrite Hc).
  exists (set_proxyPosition
            (Some (computeElementPosition (options st) (info (startDrag lay e st)) e))
            (startDrag lay e st)).
  split; [by apply dispatch_press|].
  destruct (set_proxyPosition_sort
              (Some (computeElementPosition (options st) (info (startDrag lay e st)) e))
              (startDrag lay e st)) as (-> & -> & ->).
  destruct (set_proxyPosition_keeps
              (Some (computeElementPosition (options st) (info (startDrag lay e st)) e))
              (startDrag lay e st)) as (_ & _ & _ & -> & _).
  destruct (startDrag_sort lay e st) as (-> & -> & ->).
  destruct (startDrag_keeps lay e st) as (-> & _).
  split_and!; try done.
  unfold targetChild. rewrite HisC. simpl. rewrite Hc. simpl.
  by destruct (isSort (options st)).
Qed.

(** Without a table no check moves the index. *)
Lemma untracked_run mid : ∀ s s',
  childrenInfos s = ∅ → Forall runsCheck mid → runInputs mid s = Some s' →
  dragIndex s' = dragIndex s.
Proof.
  induction mid as [|i rest IH]; intros s s' Hempty Hmid Hrun.
  - simpl in Hrun. by injection Hrun as <-.
  - apply Forall_cons in Hmid as [Hi Hrest]. simpl in Hrun.
    destruct (dispatch i s) as [s1|] eqn:Hstep; [|done]. simpl in Hrun.
    destruct (dispatch_untracked i s s1 Hempty Hstep) as [Hempty1 _].
    rewrite (IH s1 s' Hempty1 Hrest Hrun).
    apply dispatch_sortData in Hstep
      as [[_ Hidx] | (st1 & lay & point & (_ & _ & Htab & _) & Hidx & Hbody)];
      [by apply Hidx|].
    rewrite sortBody_empty in Hbody by congruence. congruence.
Qed.

(** X13: in a container that drags its children without sorting, the
    drag index is the position of the grabbed child among the children as
    they were at construction, and it stays that through every move and
    time-out of the drag. *)
Theorem unsorted_drag_index lay opts kids cs st now0 lay0 x y ox oy i mid st1 :
  isChildren opts = true → isSort opts = false → noHandle kids →
  (i < length kids)%nat →
  reachableFrom (construct lay opts kids (registry cs)) st →
  maskDisplay st = false →
  Forall runsCheck mid →
  runInputs (pressChild now0 lay0 x y ox oy i :: mid) st = Some st1 →
  dragIndex st1 = Z.of_nat i.
Proof.
  intros HisC HisS Hno Hi Hreach Hmask Hmid Hrun.
  assert (reachable st) as Hreach' by by exists lay, opts, kids, cs.
  pose proof (reachable_gesture st Hreach') as Hr.
  unfold gestureInvariant in Hr. rewrite Hmask in Hr.
  destruct (reachableFrom_child lay opts kids cs st i HisC Hreach Hi) as (c & Hc & Hattr & Hh).
  assert (isHandle c = false) as Hh'.
  { destruct (kids !! i) as [kid|] eqn:Hkid; [|done]. simpl in Hh.
    injection Hh as ->. by apply (proj1 (Forall_forall _ _) Hno kid), list_elem_of_lookup_2 with i. }
  destruct (reachableFrom_options _ _ Hreach) as [Hopts _].
  assert (isChildren (options st) = true) as HisC'.
  { rewrite Hopts, construct_isChildren, HisC. destruct kids; [simpl in Hi; lia | done]. }
  assert (isSort (options st) = false) as HisS'.
  { rewrite Hopts. destruct (construct_options lay opts kids (registry cs)) as (-> & _). done. }
  assert (childrenInfos st = ∅) as Hempty.
  { apply (reachableFrom_untracked _ _) in Hreach as [-> _]; [done|].
    by rewrite construct_childrenInfos, HisS, andb_false_r. }
  destruct (press_child now0 lay0 x y ox oy i st c Hr Hc Hh' HisC')
    as (s & Hpress & Hidx & _ & Htab & _).
  change (dispatch (pressChild now0 lay0 x y ox oy i) st ≫= runInputs mid = Some st1) in Hrun.
  rewrite Hpress in Hrun. simpl in Hrun.
  rewrite (untracked_run mid s st1) by congruence.
  rewrite Hidx, HisS', Hattr. done.
Qed.

Lemma unsorted_drag_index_witness :
  dragIndex
    (after [pressChild 0 columnLayout 5 55 5 5 1; moveDown; Timer 210 columnLayout] plainList)
  = 1.
Proof.
  apply (unsorted_drag_index columnLayout clampingOptions [plainChild; plainChild] []
           plainList 0 columnLayout 5 55 5 5 1 [moveDown; Timer 210 columnLayout]).
  - reflexivity.
  - reflexivity.
  - repeat constructor.
  - simpl. lia.
  - apply reachable_start.
  - reflexivity.
  - repeat constructor.
  - by vm_compute.
Defined.

(** *** The index follows the dragged child *)

Lemma tracks_step n hs i s s' a :
  tracked n hs s → tracks a s → runsCheck i → dispatch i s = Some s' → tracks a s'.
Proof.
  unfold tracks. intros Htr Ha Hi Hstep.
  apply dispatch_sortData in Hstep
    as [[(_ & _ & Htab & _) Hidx] | (s1 & lay & point & Hsame & Hidx & Hrun)].
  - by rewrite Htab, (Hidx Hi).
  - pose proof (tracked_same _ _ _ _ Hsame Htr) as Htr1.
    destruct Hsame as (_ & _ & Htab & _).
    destruct (sortBody_outcome _ _ _ _ _ _ Htr1 Hrun) as [-> | Hex].
    + by rewrite Htab, Hidx.
    + destruct Hex as (me & nb & a' & b & Hme & Hel & _ & _ & _ & _ & _ & Hto & _).
      rewrite Htab, Hidx in Hme. rewrite Hme in Ha. simpl in Ha.
      rewrite Hto. congruence.
Qed.

Lemma tracks_run n hs mid : ∀ s s' a,
  tracked n hs s → tracks a s → Forall runsCheck mid → runInputs mid s = Some s' →
  tracked n hs s' ∧ tracks a s'.
Proof.
  induction mid as [|i rest IH]; intros s s' a Htr Ha Hmid Hrun.
  - simpl in Hrun. by injection Hrun as <-.
  - apply Forall_cons in Hmid as [Hi Hrest]. simpl in Hrun.
    destruct (dispatch i s) as [s1|] eqn:Hstep; [|done]. simpl in Hrun.
    apply (IH s1 s' a); [by eapply dispatch_tracked | by eapply tracks_step | done | done].
Qed.

Lemma tracks_order n hs s a :
  tracked n hs s → tracks a s →
  0 ≤ dragIndex s < Z.of_nat n
  ∧ order <$> children s !! a = Some (Some (dragIndex s)).
Proof.
  unfold tracks. intros Htr Ha.
  destruct (childrenInfos s !! pretty (dragIndex s)) as [item|] eqn:Hitem; [|done].
  split; [by apply (tracked_key_range n hs s); [|rewrite Hitem]|].
  destruct Htr as (cs & lay & used & Hch & Hlen & Hperm & Hhs & Hused & Htab).
  rewrite Htab in Hitem.
  destruct (used_entry cs hs used lay _ item Hhs Hused Hitem) as (a' & ca & Hel & Hca & Hord).
  simpl in Ha. assert (a' = a) as -> by congruence.
  rewrite Hch, (lookup_app_l_Some _ _ _ _ Hca). simpl. by rewrite Hord.
Qed.

(** The child at position [i] of a tracked state has an order value, and
    the table names the child under it. *)
Lemma tracked_child n hs st i c :
  tracked n hs st → (i < n)%nat → children st !! i = Some c →
  ∃ k item, order c = Some k
            ∧ childrenInfos st !! pretty k = Some item
            ∧ PositionItem.el item = Some i.
Proof.
  intros (cs & lay & used & Hch & Hlen & Hperm & Hhs & Hused & Htab) Hi Hc.
  rewrite Hch, lookup_app_l in Hc by lia.
  assert (order c ∈ orderRange n) as (k & Hk & _)%orderRange_elem.
  { rewrite <- Hperm. apply list_elem_of_fmap. exists c. split; [done|].
    by apply list_elem_of_lookup_2 with i. }
  pose proof (tracked_orders_NoDup n cs Hperm) as Hnd.
  exists k. rewrite Htab. destruct Hused as [-> | ->].
  - destruct (tracked_lookup cs [] lay i c k Hnd (Forall_nil_2 _) Hc Hk) as (item & Hitem & Hel).
    rewrite app_nil_r in Hitem. by exists item.
  - destruct (tracked_lookup cs hs lay i c k Hnd Hhs Hc Hk) as (item & Hitem & Hel).
    by exists item.
Qed.

(** X14: in a container that sorts its children, the drag index follows
    the grabbed child.  From the press on the child at position [i], through
    every move and time-out of the drag, the index is the child's current
    order value, within the range of the children numbered at construction,
    and the table entry at the index names that child. *)
Theorem sorted_drag_index lay opts kids cs st now0 lay0 x y ox oy i mid st1 :
  isChildren opts = true → isSort opts = true → noHandle kids →
  (i < length kids)%nat →
  reachableFrom (construct lay opts kids (registry cs)) st →
  maskDisplay st = false →
  Forall runsCheck mid →
  runInputs (pressChild now0 lay0 x y ox oy i :: mid) st = Some st1 →
  0 ≤ dragIndex st1 < Z.of_nat (length kids)
  ∧ order <$> children st1 !! i = Some (Some (dragIndex st1))
  ∧ PositionItem.el <$> childrenInfos st1 !! pretty (dragIndex st1) = Some (Some i).
Proof.
  intros HisC HisS Hno Hi Hreach Hmask Hmid Hrun.
  assert (reachable st) as Hreach' by by exists lay, opts, kids, cs.
  pose proof (reachable_gesture st Hreach') as Hr.
  unfold gestureInvariant in Hr. rewrite Hmask in Hr.
  destruct (reachableFrom_child lay opts kids cs st i HisC Hreach Hi) as (c & Hc & Hattr & Hh).
  assert (isHandle c = false) as Hh'.
  { destruct (kids !! i) as [kid|] eqn:Hkid; [|done]. simpl in Hh.
    injection Hh as ->. by apply (proj1 (Forall_forall _ _) Hno kid), list_elem_of_lookup_2 with i. }
  destruct (reachableFrom_options _ _ Hreach) as [Hopts _].
  assert (isChildren (options st) = true) as HisC'.
  { rewrite Hopts, construct_isChildren, HisC. destruct kids; [simpl in Hi; lia | done]. }
  assert (isSort (options st) = true) as HisS'.
  { rewrite Hopts. destruct (construct_options lay opts kids (registry cs)) as (-> & _). done. }
  pose proof (reachableFrom_tracked _ _ _ _
                (construct_tracked lay opts kids (registry cs) HisC HisS) Hreach) as Htr.
  destruct (tracked_child _ _ st i c Htr Hi Hc) as (k & item & Hk & Hitem & Hel).
  destruct (press_child now0 lay0 x y ox oy i st c Hr Hc Hh' HisC')
    as (s & Hpress & Hidx & _ & Htab & _).
  rewrite HisS', Hk in Hidx. simpl in Hidx.
  pose proof (dispatch_tracked _ _ _ _ _ Htr Hpress) as Htrs.
  assert (tracks i s) as Hts by (unfold tracks; by rewrite Hidx, Htab, Hitem, <- Hel).
  change (dispatch (pressChild now0 lay0 x y ox oy i) st ≫= runInputs mid = Some st1) in Hrun.
  rewrite Hpress in Hrun. simpl in Hrun.
  destruct (tracks_run _ _ mid s st1 i Htrs Hts Hmid Hrun) as [Htr1 Ht1].
  destruct (tracks_order _ _ st1 i Htr1 Ht1) as [Hrange Hord].
  done.
Qed.

Lemma sorted_drag_index_witness :
  dragIndex (after [grabFirst; moveDown] (sortableList DirNone)) = 1
  ∧ order <$> children (after [grabFirst; moveDown] (sortableList DirNone)) !! 0%nat
    = Some (Some 1).
Proof.
  destruct (sorted_drag_index columnLayout (sortableOptions DirNone)
              [plainChild; plainChild; plainChild] [dropTarget "trayB"]
              (sortableList DirNone) 0 columnLayout 5 5 5 5 0 [moveDown]
              (after [grabFirst; moveDown] (sortableList DirNone)))
    as (_ & Hord & _).
  - reflexivity.
  - reflexivity.
  - repeat constructor.
  - simpl. lia.
  - apply reachable_start.
  - reflexivity.
  - repeat constructor.
  - by vm_compute.
  - split; [by vm_compute | exact Hord].
Defined.

(** *** One place at a time *)

Lemma sortBody_index lay point st st' :
  sortBody lay point st = Some st' →
  st' = st ∨ (dragIndex st' = sortTarget st point ∧ 0 ≤ sortTarget st point).
Proof.
  unfold sortBody. intros H.
  destruct (0 <=? sortTarget st point) eqn:Hpos; simpl in H; [|left; congruence].
  destruct (bool_decide _); [|left; congruence].
  right. split; [|lia].
  destruct (swapWith _ st) as [s|] eqn:Hswap; [|done]. simpl in H. injection H as <-.
  unfold swapWith in Hswap.
  destruct (childrenInfos st !! pretty (dragIndex st)) as [me|]; [|done]. simpl in Hswap.
  destruct (PositionItem.el me) as [a|]; [|done]. simpl in Hswap.
  destruct (childrenInfos st !! pretty (sortTarget st point)) as [other|]; [|done].
  simpl in Hswap.
  destruct (PositionItem.el other) as [b|]; [|done]. simpl in Hswap.
  by injection Hswap as <-.
Qed.

Lemma tracked_entry_order n hs s k item a :
  tracked n hs s → childrenInfos s !! pretty k = Some item → PositionItem.el item = Some a →
  order <$> children s !! a = Some (Some k).
Proof.
  intros (cs & lay & used & Hch & Hlen & Hperm & Hhs & Hused & Htab) Hitem Ha.
  rewrite Htab in Hitem.
  destruct (used_entry cs hs used lay _ item Hhs Hused Hitem) as (a' & ca & Hel & Hca & Hord).
  assert (a' = a) as -> by congruence.
  rewrite Hch, (lookup_app_l_Some _ _ _ _ Hca). simpl. by rewrite Hord.
Qed.

(** X15: a move or a time-out shifts the dragged element by at most one
    place.  Either the drag index and all order values stay as they are, or
    the index goes to a neighbouring order value, one less or one more and
    not negative, and exactly the two children holding the two values
    exchange them. *)
Theorem check_moves_one_place i st st' :
  reachable st → runsCheck i → dispatch i st = Some st' →
  (dragIndex st' = dragIndex st ∧ children st' = children st)
  ∨ ((dragIndex st' = dragIndex st - 1 ∨ dragIndex st' = dragIndex st + 1)
     ∧ 0 ≤ dragIndex st'
     ∧ ∃ a b,
         order <$> children st !! a = Some (Some (dragIndex st))
         ∧ order <$> children st !! b = Some (Some (dragIndex st'))
         ∧ children st'
           = writeOrder b (dragIndex st) (writeOrder a (dragIndex st') (children st))).
Proof.
  intros Hreach Hi Hstep.
  destruct (reachable_sortInvariant st Hreach) as (n & hs & Hinv).
  apply dispatch_sortData in Hstep
    as [[(_ & Hch & _) Hidx] | (s1 & lay & point & Hsame & Hidx & Hrun)];
    [left; split; [by apply Hidx | done]|].
  apply (sortInvariant_same _ _ _ _ Hsame) in Hinv.
  destruct Hsame as (_ & Hch & _).
  destruct Hinv as [Hempty | Htr].
  { rewrite sortBody_empty in Hrun by done. injection Hrun as <-. by left. }
  destruct (sortBody_outcome _ _ _ _ _ _ Htr Hrun) as [-> | Hex]; [by left|].
  destruct (sortBody_index _ _ _ _ Hrun) as [-> | [Htg Hpos]]; [by left|].
  right. rewrite <- Hidx, <- Hch. split_and!.
  - destruct (sortTarget_cases s1 point) as [[? _] | [[? _] | ?]]; [left | right | ]; lia.
  - lia.
  - destruct Hex as (me & nb & a & b & Hme & Hela & Hnb & Helb & Hch' & _).
    exists a, b. split_and!; [| |done].
    + by apply (tracked_entry_order n hs s1 _ me).
    + by apply (tracked_entry_order n hs s1 _ nb).
Qed.

Lemma check_moves_one_place_witness :
  dragIndex (after [grabFirst; moveDown] (sortableList DirNone))
  = dragIndex (after [grabFirst] (sortableList DirNone)) + 1
  ∧ order <$> children (after [grabFirst; moveDown] (sortableList DirNone))
    = [Some 1; Some 0; Some 2].
Proof.
  destruct (check_moves_one_place moveDown (after [grabFirst] (sortableList DirNone))
              (after [grabFirst; moveDown] (sortableList DirNone)))
    as [[Hsame _] | ([Hup | Hdown] & _)].
  - apply sortableList_grabbed. by left.
  - reflexivity.
  - by vm_compute.
  - by vm_compute in Hsame.
  - by vm_compute in Hup.
  - split; [exact Hdown | by vm_compute].
Defined.

(** ** The table of [updateChildrenInfo] *)

(** X16: [updateChildrenInfo] files each child under its order value,
    the last child winning.  The entry under the order value of a child that
    no later child shares holds the box and the position of that child; a
    key is in the table exactly if some child carries it. *)
Theorem updateChildrenInfo_last_wins lay cs st j c :
  cs !! j = Some c →
  (∀ j' c', (j < j')%nat → cs !! j' = Some c' → order c' ≠ order c) →
  childrenInfos (updateChildrenInfo lay cs st) !! orderKey (order c)
  = Some (childEntry lay cs j)
  ∧ ∀ key, is_Some (childrenInfos (updateChildrenInfo lay cs st) !! key)
           ↔ ∃ c', c' ∈ cs ∧ orderKey (order c') = key.
Proof.
  intros Hc Hlater. unfold updateChildrenInfo. simpl. split.
  - rewrite (collect_last_entry lay cs cs 0 ∅ j c Hc); [done|].
    intros j' c' Hlt Hc' Heq%orderKey_inj. by apply (Hlater j' c').
  - intros key. rewrite <- elem_of_dom, collect_dom, dom_empty_L, elem_of_union.
    rewrite elem_of_list_to_set, <- list_fmap_compose, list_elem_of_fmap.
    split.
    + intros [?%elem_of_empty | (c' & -> & Hin)]; [done|]. by exists c'.
    + intros (c' & Hin & <-). right. by exists c'.
Qed.

Lemma updateChildrenInfo_last_wins_witness :
  childrenInfos (updateChildrenInfo columnLayout twins plainList) !! "0"
  = Some (childEntry columnLayout twins 1).
Proof.
  apply (proj1 (updateChildrenInfo_last_wins columnLayout twins plainList 1
                  {| order := Some 0; dragIndexAttr := None; isHandle := false |}
                  eq_refl
                  ltac:(intros [|[|[|j']]] c' Hlt Hc'; simpl in *;
                        first [lia | discriminate]))).
Defined.

(** ** The clamp *)

(** X17: the clamp moves the position no further than it must.  In
    children-mode with drag-out forbidden, each coordinate of the position
    is at least as close to the pointer minus the grab offset as any position
    within the container is; a position that is within the container already
    is left as it is. *)
Theorem computeElementPosition_nearest opts i e q :
  isAllowOut opts = false → isChildren opts = true →
  withinContainer i q →
  Z.abs ((computeElementPosition opts i e).1 - (rawPosition i e).1)
    ≤ Z.abs (q.1 - (rawPosition i e).1)
  ∧ Z.abs ((computeElementPosition opts i e).2 - (rawPosition i e).2)
      ≤ Z.abs (q.2 - (rawPosition i e).2)
  ∧ (withinContainer i (rawPosition i e) → computeElementPosition opts i e = rawPosition i e).
Proof.
  unfold computeElementPosition, rawPosition, withinContainer.
  intros -> -> [[Ht1 Ht2] [Hl1 Hl2]]. simpl. split_and!.
  - repeat case_match; lia.
  - repeat case_match; lia.
  - intros [[? ?] [? ?]]. repeat case_match; f_equal; lia.
Qed.

Lemma computeElementPosition_nearest_witness :
  computeElementPosition clampingOptions childInfo (pointerAt mousemove 35 60) = (55, 30)
  ∧ Z.abs ((computeElementPosition clampingOptions childInfo (pointerAt mousemove 400 (-3))).1
           - (rawPosition childInfo (pointerAt mousemove 400 (-3))).1)
    ≤ Z.abs (20 - (rawPosition childInfo (pointerAt mousemove 400 (-3))).1).
Proof.
  split.
  - apply (proj2 (proj2 (computeElementPosition_nearest clampingOptions childInfo
                           (pointerAt mousemove 35 60) (20, 30) eq_refl eq_refl
                           ltac:(by vm_compute)))).
    by vm_compute.
  - apply (proj1 (computeElementPosition_nearest clampingOptions childInfo
                    (pointerAt mousemove 400 (-3)) (20, 30) eq_refl eq_refl
                    ltac:(by vm_compute))).
Defined.

(** ** Dragging the container as a whole *)

(** X18: without children-mode the container is dragged as a whole.
    When [isChildren] is off, or on with no child to drag, it is off in
    every state the instance reaches: the children are left unnumbered, no
    table is kept, the clone is never made of a child, and the position is
    never clamped, whatever [isAllowOut] says. *)
Theorem whole_container_mode lay opts kids cs st :
  isChildren opts = false ∨ kids = [] →
  reachableFrom (construct lay opts kids (registry cs)) st →
  isChildren (options st) = false
  ∧ children st = kids ++ handles opts
  ∧ childrenInfos st = ∅
  ∧ (∀ e, targetChild st e = None)
  ∧ (∀ i e, computeElementPosition (options st) i e = rawPosition i e).
Proof.
  intros Hmode Hreach.
  destruct (reachableFrom_options _ _ Hreach) as [Hopts _].
  assert (isChildren (options st) = false) as HisC.
  { rewrite Hopts, construct_isChildren.
    destruct Hmode as [-> | ->]; [done | by rewrite andb_false_r]. }
  assert (childrenInfos (construct lay opts kids (registry cs)) = ∅) as Hempty.
  { rewrite construct_childrenInfos.
    destruct Hmode as [-> | ->]; [done | by destruct (_ && _)]. }
  destruct (reachableFrom_untracked _ _ Hempty Hreach) as [Htab Hch].
  split_and!; [done| |done| |].
  - rewrite Hch, construct_children. by destruct Hmode as [-> | ->]; [|destruct (isChildren opts)].
  - intros e. unfold targetChild. by rewrite HisC.
  - intros i e. unfold computeElementPosition, rawPosition. by rewrite HisC, andb_false_r.
Qed.

Lemma whole_container_mode_witness :
  isChildren (options (after [pressHandle; dragHandle] panelA)) = false
  ∧ childrenInfos (after [pressHandle; dragHandle] panelA) = ∅.
Proof.
  destruct (whole_container_mode panelLayout panelOptions [] []
              (after [pressHandle; dragHandle] panelA))
    as (HisC & _ & Htab & _).
  - by left.
  - apply reachableFrom_run; [apply reachable_start | run_deliverable].
  - by split.
Defined.

(** ** The storage key *)

Lemma string_length_app (a s : string) :
  String.length (a +:+ s) = (String.length a + String.length s)%nat.
Proof.
  induction a as [|c a IH]; [done|].
  change (String c a +:+ s) with (String c (a +:+ s)). simpl. by rewrite IH.
Qed.

Lemma string_app_inj_r (s : string) : ∀ a b, a +:+ s = b +:+ s → a = b.
Proof.
  induction a as [|c a IH]; intros [|d b] Heq; [done| | |].
  - apply (f_equal String.length) in Heq.
    rewrite !string_length_app in Heq. simpl in Heq. lia.
  - apply (f_equal String.length) in Heq.
    rewrite !string_length_app in Heq. simpl in Heq. lia.
  - change (String c (a +:+ s) = String d (b +:+ s)) in Heq.
    injection Heq as -> Heq. by rewrite (IH b Heq).
Qed.

(** X19: the key a resize is stored under tells resize identifiers
    apart.  Two instances write the same key exactly if they have the same
    identifier, an instance without one counting as [undefined]: containers
    with different identifiers never overwrite each other's size, and all
    those without one share a key, also with one named [undefined]. *)
Theorem storageKey_identifies o1 o2 :
  storageKey o1 = storageKey o2
  ↔ default "undefined" (resizeId o1) = default "undefined" (resizeId o2).
Proof.
  unfold storageKey. split; [|by intros ->].
  intros Heq%(inj (String.app "drag-")). by apply string_app_inj_r in Heq.
Qed.
